(** * Compendium manager: reduce, merge and sort of translation JSON documents

    A shallow embedding of [utils/compendium_manager.py] and the proofs of
    its specified properties.

    Modelling conventions.
    - A JSON document is a [value].  A Python [dict] is an insertion-ordered
      association list [list (string * value)]; the keys of a Python dict are
      pairwise distinct, so a loop over [obj.items()] that assigns
      [new_obj[k] = ...] appends one fresh key per iteration (see [dict_of]).
      Assignments whose key may already be present go through [dict_set].
    - Python [None] is JSON [null]: both are [JNull].
    - Strings are byte strings (UTF-8); byte-wise lexicographic order agrees
      with Python's code point order on [str].
    - Numbers are never inspected by the program; integers stand for them.
    - The merge functions mutate the destination in place.  The two trees
      given to them are loaded from two different files, so they share no
      object, and every container occurs once in its tree: a mutation is
      modelled by returning the updated destination. *)

From Stdlib Require Import ZArith.
From stdpp Require Import gmap strings list fin_maps sorting.

(** ** JSON values *)

Unset Elimination Schemes.
Inductive value : Type :=
| JNull
| JBool (b : bool)
| JNum (n : Z)
| JStr (s : string)
| JList (l : list value)
| JDict (d : list (string * value)).
Set Elimination Schemes.

Abbreviation items := (list (string * value)).

Section value_induction.
Variable P : value → Prop.
Hypothesis Hnull : P JNull.
Hypothesis Hbool : ∀ b, P (JBool b).
Hypothesis Hnum : ∀ n, P (JNum n).
Hypothesis Hstr : ∀ s, P (JStr s).
Hypothesis Hlist : ∀ l, Forall P l → P (JList l).
Hypothesis Hdict : ∀ d : items, Forall (λ kv, P kv.2) d → P (JDict d).

Fixpoint value_ind' (v : value) : P v :=
  match v with
  | JNull => Hnull
  | JBool b => Hbool b
  | JNum n => Hnum n
  | JStr s => Hstr s
  | JList l =>
      Hlist l ((fix go (l : list value) : Forall P l :=
                  match l with
                  | [] => @List.Forall_nil _ P
                  | x :: l' => @List.Forall_cons _ P x l' (value_ind' x) (go l')
                  end) l)
  | JDict d =>
      Hdict d ((fix go (d : items) : Forall (λ kv, P kv.2) d :=
                  match d with
                  | [] => @List.Forall_nil _ _
                  | kv :: d' => @List.Forall_cons _ _ kv d' (value_ind' kv.2) (go d')
                  end) d)
  end.
End value_induction.

(** [isinstance(v, dict)], [isinstance(v, list)], [isinstance(v, str)]. *)
Definition is_dict (v : value) : bool :=
  match v with JDict _ => true | _ => false end.
Definition is_list (v : value) : bool :=
  match v with JList _ => true | _ => false end.
Definition is_str (v : value) : bool :=
  match v with JStr _ => true | _ => false end.
Definition is_container (v : value) : bool := is_dict v || is_list v.

(** [d.get(k)]: [None] when the key is absent. *)
Fixpoint dict_get (k : string) (d : items) : option value :=
  match d with
  | [] => None
  | (k', v) :: d' => if String.eqb k k' then Some v else dict_get k d'
  end.

(** [k in d]. *)
Definition dict_has (k : string) (d : items) : bool :=
  match dict_get k d with Some _ => true | None => false end.

(** [d[k] = v]: the value is replaced where the key stands, a new key goes
    to the end. *)
Fixpoint dict_set (d : items) (k : string) (v : value) : items :=
  match d with
  | [] => [(k, v)]
  | (k', v') :: d' =>
      if String.eqb k k' then (k', v) :: d' else (k', v') :: dict_set d' k v
  end.

Definition keys (d : items) : list string := d.*1.

(** The dict built from the empty dict by the assignments [d[k] = v] for
    the items [(k, v)] of a list, in order.  The loops and comprehensions
    that build a new dict are modelled by the list of their assignments;
    when the keys assigned are distinct, as they are when they come from the
    keys of a dict, that list is the dict built ([dict_of_distinct]). *)
Definition dict_of (assignments : items) : items :=
  fold_left (λ d kv, dict_set d kv.1 kv.2) assignments [].

(** Decidable equality of values, as Python's [==] on trees whose dicts are
    compared key by key in the same order. *)
Fixpoint value_eqb (a b : value) : bool :=
  match a, b with
  | JNull, JNull => true
  | JBool x, JBool y => Bool.eqb x y
  | JNum x, JNum y => Z.eqb x y
  | JStr x, JStr y => String.eqb x y
  | JList x, JList y =>
      (fix go (x y : list value) : bool :=
         match x, y with
         | [], [] => true
         | a :: x', b :: y' => value_eqb a b && go x' y'
         | _, _ => false
         end) x y
  | JDict x, JDict y =>
      (fix go (x y : items) : bool :=
         match x, y with
         | [], [] => true
         | (ka, a) :: x', (kb, b) :: y' =>
             String.eqb ka kb && value_eqb a b && go x' y'
         | _, _ => false
         end) x y
  | _, _ => false
  end.

(** ** Configuration *)

Definition KEEP_KEYS : list string :=
  ["label"; "_id"; "name"; "tokenName"; "description"; "notes"].
Definition TRANSLATABLE_KEYS : list string := KEEP_KEYS.
Definition TOP_LEVEL_KEYS_ORDER : list string :=
  ["label"; "mapping"; "folders"; "entries"].
Definition KEYS_TO_SORT_IMMEDIATELY : list string := ["folders"; "entries"].

(** [k in S] for one of the constant key collections above. *)
Definition key_in (k : string) (S : list string) : bool :=
  existsb (String.eqb k) S.
Arguments key_in : simpl never.

(** ** Reduce helpers *)

(** [cleaned in (None, {}, [])]. *)
Definition is_blank (v : value) : bool :=
  match v with
  | JNull | JDict [] | JList [] => true
  | _ => false
  end.

Fixpoint clean_entry (obj : value) : value :=
  match obj with
  | JDict d =>
      JDict ((fix go (d : items) : items :=
                match d with
                | [] => []
                | (k, v) :: d' =>
                    if key_in k KEEP_KEYS then (k, v) :: go d'
                    else if is_container v then
                      let cleaned := clean_entry v in
                      if is_blank cleaned then go d' else (k, cleaned) :: go d'
                    else go d'
                end) d)
  | JList l =>
      let cleaned_list := map clean_entry l in
      JList (filter (λ i, is_blank i = false) cleaned_list)
  | _ => JNull
  end.

(** The loop of [clean_entry] over the items of a dict. *)
Fixpoint clean_items (d : items) : items :=
  match d with
  | [] => []
  | (k, v) :: d' =>
      if key_in k KEEP_KEYS then (k, v) :: clean_items d'
      else if is_container v then
        let cleaned := clean_entry v in
        if is_blank cleaned then clean_items d' else (k, cleaned) :: clean_items d'
      else clean_items d'
  end.

(** The dict comprehension [{ek: clean_entry(ev) for ek, ev in v.items()}]. *)
Definition clean_each (d : items) : items :=
  map (λ kv, (kv.1, clean_entry kv.2)) d.

Fixpoint reduce_entries (data : value) : value :=
  match data with
  | JDict d =>
      JDict (map (λ kv,
                match kv.2 with
                | JDict e =>
                    if String.eqb kv.1 "entries" then (kv.1, JDict (clean_each e))
                    else (kv.1, reduce_entries kv.2)
                | JList _ => (kv.1, reduce_entries kv.2)
                | _ => (kv.1, kv.2)
                end) d)
  | _ => data
  end.

Fixpoint has_entries_nonempty (data : value) : bool :=
  match data with
  | JDict d =>
      match dict_get "entries" d with
      | Some (JDict (_ :: _)) => true
      | _ => existsb (λ kv, has_entries_nonempty kv.2) d
      end
  | JList l => existsb has_entries_nonempty l
  | _ => false
  end.

(** [any((k in item and k != "_id") for k in KEEP_KEYS)]. *)
Definition has_translatable_key (item : items) : bool :=
  existsb (λ k, dict_has k item && negb (String.eqb k "_id")) KEEP_KEYS.

Fixpoint has_translatable_list (data : value) : bool :=
  match data with
  | JDict d => existsb (λ kv, has_translatable_list kv.2) d
  | JList l =>
      existsb (λ item,
                 match item with
                 | JDict d => has_translatable_key d || has_translatable_list item
                 | _ => false
                 end) l
  | _ => false
  end.

(** [sorted(d.items(), key=lambda item: item[0])]: a stable sort by key. *)
Fixpoint insert_item (kv : string * value) (l : items) : items :=
  match l with
  | [] => [kv]
  | kv' :: l' =>
      if String.leb kv.1 kv'.1 then kv :: l else kv' :: insert_item kv l'
  end.

Definition sorted_items (d : items) : items := foldr insert_item [] d.

(** [json.dumps(v, sort_keys=True)] writes every dict with its keys in
    sorted order; two such texts are equal exactly when the trees with all
    dicts sorted are. *)
Fixpoint sort_keys (v : value) : value :=
  match v with
  | JDict d => JDict (sorted_items (map (λ kv, (kv.1, sort_keys kv.2)) d))
  | JList l => JList (map sort_keys l)
  | _ => v
  end.

Definition has_reduction (original reduced : value) : bool :=
  negb (value_eqb (sort_keys original) (sort_keys reduced)).

(** The body of the loop of [reduce_directory] for one parsed document:
    [Some reduced] is the companion that is written, [None] stands for every
    path that writes nothing.  The body runs under [try]: when a helper
    raises (the interpreter's recursion limit, on a document nested deeper
    than it allows), the loop prints the error and writes nothing as well.
    That limit is not part of the model, so [reduce_file] gives the file
    written whenever one is written, and can give one where the interpreter
    gave up. *)
Definition reduce_file (data : value) : option value :=
  if negb (has_entries_nonempty data) then None
  else if negb (has_translatable_list data) then None
  else
    let reduced := reduce_entries data in
    if has_reduction data reduced then Some reduced else None.

(** ** Sort helpers *)

Definition sort_immediate_keys (data : value) : value :=
  match data with
  | JDict d => JDict (sorted_items d)
  | _ => data
  end.

(** The first loop of [partial_sort_json], over [TOP_LEVEL_KEYS_ORDER]. *)
Definition top_level_part (data : items) : items :=
  flat_map (λ key,
              match dict_get key data with
              | Some value =>
                  if key_in key KEYS_TO_SORT_IMMEDIATELY && is_dict value
                  then [(key, sort_immediate_keys value)]
                  else [(key, value)]
              | None => []
              end) TOP_LEVEL_KEYS_ORDER.

(** The second loop, over [data.items()]. *)
Definition other_part (data : items) : items :=
  filter (λ kv, key_in kv.1 TOP_LEVEL_KEYS_ORDER = false) data.

Definition partial_sort_json (data : items) : items :=
  top_level_part data ++ other_part data.

(** [process_json_file_for_sort] on a parsed document: [None] when the
    document is not a JSON object and the file is left alone. *)
Definition sort_file (data : value) : option value :=
  match data with
  | JDict d => Some (JDict (partial_sort_json d))
  | _ => None
  end.

(** ** Merge helpers *)

(** The loop of [copy_string_fields] over [src.items()]. *)
Definition copy_items (dst src : items) : items :=
  fold_left (λ dst kv,
               if String.eqb kv.1 "_id" then dst
               else if is_str kv.2 && key_in kv.1 TRANSLATABLE_KEYS
                    then dict_set dst kv.1 kv.2
                    else dst) src dst.

Definition copy_string_fields (dst src : value) : value :=
  match dst, src with
  | JDict d, JDict s => JDict (copy_items d s)
  | _, _ => dst
  end.

(** [[i for i, it in enumerate(l) if isinstance(it, dict)]]. *)
Fixpoint dict_indices_from (i : nat) (l : list value) : list nat :=
  match l with
  | [] => []
  | it :: l' =>
      if is_dict it then i :: dict_indices_from (S i) l'
      else dict_indices_from (S i) l'
  end.

Definition dict_indices (l : list value) : list nat := dict_indices_from 0 l.

(** [v.get(k)] when [v] is a dict and the value found is a string. *)
Definition str_field (k : string) (v : value) : option string :=
  match v with
  | JDict d => match dict_get k d with Some (JStr s) => Some s | _ => None end
  | _ => None
  end.

(** The dict comprehension
    [{src_list[i].get(k): i for i in src_idx
      if isinstance(src_list[i].get(k), str)}]:
    the assignments are made in the order of [src_idx]. *)
Definition index_by (k : string) (src_list : list value) (src_idx : list nat)
  : gmap string nat :=
  fold_left (λ m i,
               match src_list !! i ≫= str_field k with
               | Some s => <[s:=i]> m
               | None => m
               end) src_idx ∅.

(** The lookup tables [by_id] and [by_name] of [merge_lists]. *)
Definition by_id (src_list : list value) : gmap string nat :=
  index_by "_id" src_list (dict_indices src_list).

Definition by_name (src_list : list value) : gmap string nat :=
  index_by "name" src_list (dict_indices src_list).

(** The state of one run of [merge_lists]: the destination list, the set
    [used_src], and a history of the calls
    [merge_translations(dst_list[di], src_list[si])] made so far, as pairs
    [(di, si)].  The history is not program state; it is kept to state which
    elements were paired. *)
Record merge_state := MergeState {
  ms_dst : list value;
  ms_used : gset nat;
  ms_log : list (nat * nat)
}.

Section merge_lists.
(** [merge_at si d] stands for [merge_translations(d, src_list[si])]. *)
Variable merge_at : nat → value → value.
Variable src_list : list value.

(** [merge_translations(dst_list[di], src_list[si]); used_src.add(si)]. *)
Definition merge_pair (st : merge_state) (di si : nat) : merge_state :=
  match ms_dst st !! di with
  | Some d =>
      MergeState (<[di := merge_at si d]> (ms_dst st))
                 ({[si]} ∪ ms_used st)
                 (ms_log st ++ [(di, si)])
  | None => st
  end.

(** One iteration of the first loop ([k] is ["_id"], [table] is [by_id])
    or of the second ([k] is ["name"], [table] is [by_name]). *)
Definition pass_key (k : string) (table : gmap string nat)
           (st : merge_state) (di : nat) : merge_state :=
  match ms_dst st !! di with
  | Some d =>
      match str_field k d with
      | Some key =>
          match table !! key with
          | Some si =>
              if decide (si ∈ ms_used st) then st else merge_pair st di si
          | None => st
          end
      | None => st
      end
  | None => st
  end.

Definition is_dict_at (l : list value) (i : nat) : bool :=
  match l !! i with Some v => is_dict v | None => false end.

(** [zip(rem_dst, rem_src)]. *)
Definition positional_pairs (st : merge_state) (dst_idx src_idx : list nat)
  : list (nat * nat) :=
  let rem_dst := filter (λ di, is_dict_at (ms_dst st) di = true) dst_idx in
  let rem_src := filter (λ si, si ∉ ms_used st) src_idx in
  zip rem_dst rem_src.

Definition pass_id (dst_list : list value) : merge_state :=
  let dst_idx := dict_indices dst_list in
  fold_left (pass_key "_id" (by_id src_list)) dst_idx
            (MergeState dst_list ∅ []).

Definition pass_name (dst_list : list value) : merge_state :=
  let dst_idx := dict_indices dst_list in
  fold_left (pass_key "name" (by_name src_list)) dst_idx (pass_id dst_list).

Definition pass_index (dst_list : list value) : merge_state :=
  let dst_idx := dict_indices dst_list in
  let src_idx := dict_indices src_list in
  let st := pass_name dst_list in
  fold_left (λ st p, merge_pair st p.1 p.2)
            (positional_pairs st dst_idx src_idx) st.

Definition merge_lists_run (dst_list : list value) : merge_state :=
  pass_index dst_list.
End merge_lists.

Section merge_node.
(** [rec sv v] stands for [merge_translations(v, sv)]. *)
Variable rec : value → value → value.

(** [merge_lists(dl, sl)], returning the updated [dl]. *)
Definition merge_lists_with (sl dl : list value) : list value :=
  ms_dst (merge_lists_run (λ si, nth si (map rec sl) (λ d, d)) sl dl).

(** One iteration of the loop over [list(dst.items())]: [sv = src.get(k)],
    then the recursive merge when both values are dicts, or [merge_lists]
    when both are lists. *)
Fixpoint same_key_with (s : items) (k : string) (v : value) : value :=
  match s with
  | [] => v
  | (k', sv) :: s' =>
      if String.eqb k k' then
        match sv, v with
        | JDict _, JDict _ => rec sv v
        | JList sl, JList dl => JList (merge_lists_with sl dl)
        | _, _ => v
        end
      else same_key_with s' k v
  end.

(** One iteration of [for dl in dst_lists], with the loop over [src_lists]
    inside: every list of the source is merged into [dl], in the order of
    [src.values()].  The test [dl is not sl] always holds, the two lists
    belonging to different trees. *)
Fixpoint cross_lists_with (s : items) (dl : list value) : list value :=
  match s with
  | [] => dl
  | (_, JList sl) :: s' => cross_lists_with s' (merge_lists_with sl dl)
  | _ :: s' => cross_lists_with s' dl
  end.

Definition merge_items_with (s d : items) : items :=
  let d1 := copy_items d s in
  let d2 := map (λ kv, (kv.1, same_key_with s kv.1 kv.2)) d1 in
  map (λ kv, match kv.2 with
             | JList dl => (kv.1, JList (cross_lists_with s dl))
             | _ => kv
             end) d2.
End merge_node.

(** [merge_rec src dst] is [merge_translations(dst, src)]; the recursion
    descends in [src], which is only read. *)
Fixpoint merge_rec (src : value) : value → value :=
  match src with
  | JDict s => λ dst,
      match dst with
      | JDict d => JDict (merge_items_with merge_rec s d)
      | _ => dst
      end
  | _ => λ dst, dst
  end.

Definition merge_translations (dst src : value) : value := merge_rec src dst.

(** [merge_translations(d, src_list[si])]. *)
Definition merge_at_src (src_list : list value) (si : nat) (d : value) : value :=
  match src_list !! si with
  | Some s => merge_translations d s
  | None => d
  end.

(** The history and final state of [merge_lists(dst_list, src_list)]. *)
Definition merge_lists_trace (dst_list src_list : list value) : merge_state :=
  merge_lists_run (merge_at_src src_list) src_list dst_list.

(** The same after the loops by [_id] and by [name], before the positional
    loop. *)
Definition merge_lists_keyed (dst_list src_list : list value) : merge_state :=
  pass_name (merge_at_src src_list) src_list dst_list.

Definition merge_lists (dst_list src_list : list value) : list value :=
  ms_dst (merge_lists_trace dst_list src_list).

(** [t_by_key]: the entries of the translated document that are dicts. *)
Definition t_by_key (t_entries : items) : items :=
  filter (λ kv, is_dict kv.2 = true) t_entries.

(** [t_by_inner_name]: the translated entries by their own string [name];
    a later entry replaces an earlier one of the same name. *)
Definition t_by_inner_name (t_entries : items) : gmap string value :=
  fold_left (λ m kv,
               match str_field "name" kv.2 with
               | Some nm => <[nm:=kv.2]> m
               | None => m
               end) t_entries ∅.

(** The translated record chosen for the original record [o_val] stored
    under [key]. *)
Definition find_translation (t_entries : items) (key : string) (o_val : value)
  : option value :=
  match dict_get key (t_by_key t_entries) with
  | Some t_val => Some t_val
  | None =>
      match str_field "name" o_val with
      | Some oname =>
          match dict_get oname (t_by_key t_entries) with
          | Some t_val => Some t_val
          | None => t_by_inner_name t_entries !! oname
          end
      | None => None
      end
  end.

Definition merge_entries (o_entries t_entries : items) : items :=
  map (λ kv,
         if is_dict kv.2 then
           match find_translation t_entries kv.1 kv.2 with
           | Some t_val => (kv.1, merge_translations kv.2 t_val)
           | None => kv
           end
         else kv) o_entries.

(** The body of the loop of [merge_directory] for one pair of parsed
    documents: [Some original] is what is written back over the original
    file, [None] stands for the paths that write nothing. *)
Definition merge_file (original translated : value) : option value :=
  match original, translated with
  | JDict o, JDict t =>
      let o1 := copy_items o t in
      match dict_get "entries" o1, dict_get "entries" t with
      | Some (JDict o_entries), Some (JDict t_entries) =>
          Some (JDict (dict_set o1 "entries"
                         (JDict (merge_entries o_entries t_entries))))
      | _, _ => None
      end
  | _, _ => None
  end.

(** * Vocabulary of the properties *)

(** What [reduce_entries] does to one item of a dict. *)
Definition reduce_item (kv : string * value) : string * value :=
  match kv.2 with
  | JDict e =>
      if String.eqb kv.1 "entries" then (kv.1, JDict (clean_each e))
      else (kv.1, reduce_entries kv.2)
  | JList _ => (kv.1, reduce_entries kv.2)
  | _ => (kv.1, kv.2)
  end.

(** A non-empty [entries] mapping somewhere in the tree: at a mapping whose
    [entries] key holds a non-empty mapping, or below a value of a mapping,
    or below an element of a sequence. *)
Inductive contains_entries : value → Prop :=
| ce_here (d e : items) kv :
    dict_get "entries" d = Some (JDict (kv :: e)) →
    contains_entries (JDict d)
| ce_value (d : items) k v :
    (k, v) ∈ d → contains_entries v → contains_entries (JDict d)
| ce_element (l : list value) v :
    v ∈ l → contains_entries v → contains_entries (JList l).

(** The documents of the round-trip scenario. *)
Module RoundTrip.
Definition sword (label : string) : items :=
  [("_id", JStr "i1"); ("name", JStr "Sword"); ("label", JStr label)].

Definition original : value :=
  JDict [("entries",
          JDict [("a", JDict (sword "Sword" ++ [("value", JNum 10)]))])].

Definition companion : value :=
  JDict [("entries", JDict [("a", JDict (sword "Sword"))])].

(** The companion after the translator changed [label]. *)
Definition translated : value :=
  JDict [("entries",
          JDict [("a", JDict (dict_set (sword "Sword") "label" (JStr "Espada")))])].

Definition merged_back : value :=
  JDict [("entries",
          JDict [("a", JDict (sword "Espada" ++ [("value", JNum 10)]))])].
End RoundTrip.

(** Items in ascending order of their keys, compared byte by byte. *)
Definition key_le (a b : string * value) : Prop := String.leb a.1 b.1 = true.

(** The value [partial_sort_json] stores under a top-level key. *)
Definition sort_value (key : string) (v : value) : value :=
  if key_in key KEYS_TO_SORT_IMMEDIATELY && is_dict v
  then sort_immediate_keys v else v.

(** What the first loop of [partial_sort_json] emits for one key of
    [TOP_LEVEL_KEYS_ORDER]. *)
Definition top_level_item (data : items) (key : string) : items :=
  match dict_get key data with
  | Some v => [(key, sort_value key v)]
  | None => []
  end.

(** The string found under [k] in the element [i] of [l], when that element
    is a dict holding a string there. *)
Definition field_at (k : string) (l : list value) (i : nat) : option string :=
  l !! i ≫= str_field k.

(** The values [copy_string_fields] writes: a string, under a translatable
    key other than [_id]. *)
Definition copyable (k : string) (v : value) : Prop :=
  k ≠ "_id" ∧ key_in k TRANSLATABLE_KEYS = true ∧ is_str v = true.

Unset Elimination Schemes.
(** [merged v v']: [v'] can be what a merge leaves where [v] stood.
    A scalar stays as it is.  A sequence keeps its length, element by
    element.  A mapping keeps its keys in their places, the value under a
    key being merged in turn or replaced by a copied string, and can gain
    copied strings under new keys at its end. *)
Inductive merged : value → value → Prop :=
| merged_leaf v : is_container v = false → merged v v
| merged_list l l' : Forall2 merged l l' → merged (JList l) (JList l')
| merged_dict (d d' extra : items) :
    Forall2 (λ kv kv', kv.1 = kv'.1 ∧
                       (merged kv.2 kv'.2 ∨ copyable kv.1 kv'.2)) d d' →
    Forall (λ kv, copyable kv.1 kv.2) extra →
    merged (JDict d) (JDict (d' ++ extra)).
Set Elimination Schemes.

(** The relation of [merged_dict] between an item and the item in its
    place afterwards. *)
Abbreviation merged_item :=
  (λ kv kv' : string * value,
     kv.1 = kv'.1 ∧ (merged kv.2 kv'.2 ∨ copyable kv.1 kv'.2)).

(** The set [used_src] holds the source indices of the history, and no
    source index occurs twice in the history. *)
Definition consumed_once (st : merge_state) : Prop :=
  (∀ si, si ∈ ms_used st ↔ si ∈ (ms_log st).*2) ∧ NoDup (ms_log st).*2.

(** The statement proved by induction on the source: merging [s] into any
    destination gives a [merged] destination, and so does merging any
    element of [s] when [s] is a sequence. *)
Definition merges_well (s : value) : Prop :=
  (∀ d, merged d (merge_rec s d)) ∧
  match s with
  | JList sl => Forall (λ x, ∀ d, merged d (merge_rec x d)) sl
  | _ => True
  end.

(** Whether [copy_string_fields] copies the item [kv] of the source. *)
Definition copied (kv : string * value) : bool :=
  negb (String.eqb kv.1 "_id") && (is_str kv.2 && key_in kv.1 TRANSLATABLE_KEYS).

(** Every pair of the history has a destination index in [P] and a source
    index in [Q]. *)
Definition log_within (P Q : nat → Prop) (st : merge_state) : Prop :=
  ∀ p, p ∈ ms_log st → P p.1 ∧ Q p.2.

(** The pairs of the positional loop: all the destination mappings, in
    order, against the source mappings not yet used, in order. *)
Definition fallback_pairs (dl sl : list value) : list (nat * nat) :=
  zip (dict_indices dl)
      (filter (λ si, si ∉ ms_used (merge_lists_keyed dl sl)) (dict_indices sl)).

(** The destination list is what the merges of the history make of it. *)
Definition replay (src_list : list value) (log : list (nat * nat))
           (dst_list : list value) : list value :=
  fold_left (λ l p, match l !! p.1 with
                    | Some d => <[p.1 := merge_at_src src_list p.2 d]> l
                    | None => l
                    end) log dst_list.

(** The invariant of a run: destination list and history agree. *)
Definition replayed (sl dl : list value) (st : merge_state) : Prop :=
  ms_dst st = replay sl (ms_log st) dl.

(** [leaf_at p v x]: the scalar [x] is a leaf of [v] under the key path
    [p].  A path lists the keys of the mappings gone through; going to an
    element of a sequence adds nothing to it. *)
Inductive leaf_at : list string → value → value → Prop :=
| leaf_here v : is_container v = false → leaf_at [] v v
| leaf_value k p (d : items) v x :
    (k, v) ∈ d → leaf_at p v x → leaf_at (k :: p) (JDict d) x
| leaf_element p (l : list value) v x :
    v ∈ l → leaf_at p v x → leaf_at p (JList l) x.

(** [key_at p v]: [p] is a path of keys of [v], each a key of the mapping
    reached by the ones before it. *)
Inductive key_at : list string → value → Prop :=
| key_here k (d : items) v : (k, v) ∈ d → key_at [k] (JDict d)
| key_value k p (d : items) v :
    (k, v) ∈ d → key_at p v → key_at (k :: p) (JDict d)
| key_element p (l : list value) v :
    v ∈ l → key_at p v → key_at p (JList l).

(** Every value directly inside an [entries] mapping that [reduce_entries]
    reduces is itself a mapping or a sequence. *)
Fixpoint entries_hold_containers (data : value) : bool :=
  match data with
  | JDict d =>
      forallb (λ kv,
                 match kv.2 with
                 | JDict e =>
                     if String.eqb kv.1 "entries"
                     then forallb (λ ev, is_container ev.2) e
                     else entries_hold_containers kv.2
                 | _ => true
                 end) d
  | _ => true
  end.

Unset Elimination Schemes.
(** [filtered v v']: [v'] is [v] with keys and elements removed, at any
    depth.  What is left of a sequence is some of its elements, in their
    order and each at most once; what is left of a mapping is some of its
    items, under their keys and in their order; an element or a value that
    is left is as it was, or is filtered in turn.  Nothing is added, moved
    or repeated. *)
Inductive filtered : value → value → Prop :=
| filtered_same v : filtered v v
| filtered_list (l l0 l' : list value) :
    l0 `sublist_of` l → Forall2 filtered l0 l' →
    filtered (JList l) (JList l')
| filtered_dict (d d0 d' : items) :
    d0 `sublist_of` d →
    Forall2 (λ kv kv', kv.1 = kv'.1 ∧ filtered kv.2 kv'.2) d0 d' →
    filtered (JDict d) (JDict d').
Set Elimination Schemes.

(** A sequence with a mapping element that holds a key of [KEEP_KEYS] other
    than [_id]; the sequence is reached from the root through the values of
    mappings and the mapping elements of sequences. *)
Inductive translatable_list_in : value → Prop :=
| tl_value (d : items) k v :
    (k, v) ∈ d → translatable_list_in v → translatable_list_in (JDict d)
| tl_here (l : list value) (item : items) k :
    JDict item ∈ l → k ∈ KEEP_KEYS → k ≠ "_id" → dict_has k item = true →
    translatable_list_in (JList l)
| tl_element (l : list value) (item : items) :
    JDict item ∈ l → translatable_list_in (JDict item) →
    translatable_list_in (JList l).

Unset Elimination Schemes.
(** [reordered v v']: the same tree up to the order of the keys of its
    mappings, the keys of every mapping being distinct. *)
Inductive reordered : value → value → Prop :=
| reordered_leaf v : is_container v = false → reordered v v
| reordered_list l l' : Forall2 reordered l l' → reordered (JList l) (JList l')
| reordered_dict (d d1 d' : items) :
    Forall2 (λ kv kv', kv.1 = kv'.1 ∧ reordered kv.2 kv'.2) d d1 →
    d1 ≡ₚ d' → NoDup (keys d) →
    reordered (JDict d) (JDict d').
Set Elimination Schemes.

(** The output of [clean_entry] holds no leftovers: under a key outside
    [KEEP_KEYS] a mapping holds a non-empty mapping or sequence, reduced in
    turn, and a sequence holds no null, empty mapping or empty sequence.
    What stands under a key of [KEEP_KEYS] is not looked into. *)
Fixpoint no_leftovers (v : value) : bool :=
  match v with
  | JDict d =>
      forallb (λ kv, key_in kv.1 KEEP_KEYS ||
                     (is_container kv.2 && negb (is_blank kv.2) &&
                      no_leftovers kv.2)) d
  | JList l => forallb (λ x, negb (is_blank x) && no_leftovers x) l
  | _ => true
  end.

(** The source gives [merge_translations] nothing to work with: all its
    values are scalars, and none is a string under a translatable key other
    than [_id]. *)
Definition carries_nothing (s : items) : Prop :=
  ∀ k v, (k, v) ∈ s → is_container v = false ∧ ¬ copyable k v.

(** The mapping entries of the translated document whose own [name] is
    [nm]. *)
Definition inner_name_is (nm : string) (kv : string * value) : Prop :=
  str_field "name" kv.2 = Some nm.

(** No sequence anywhere in the tree. *)
Fixpoint list_free (v : value) : bool :=
  match v with
  | JList _ => false
  | JDict d => forallb (λ kv, list_free kv.2) d
  | _ => true
  end.

(** The keys of every mapping of the tree are distinct, as they are in
    every tree read from a JSON text. *)
Fixpoint distinct_keys (v : value) : bool :=
  match v with
  | JDict d =>
      bool_decide (NoDup (keys d)) && forallb (λ kv, distinct_keys kv.2) d
  | JList l => forallb distinct_keys l
  | _ => true
  end.

(** [agrees s d]: the source [s] has nothing new for the destination [d].
    Under every translatable key other than [_id] where [s] holds a string,
    [d] holds the same string; a mapping of [s] agrees with every mapping
    that [d] holds under the same key; and [s] holds no sequence. *)
Fixpoint agrees (s d : value) : bool :=
  match s, d with
  | JDict si, JDict di =>
      forallb (λ kv,
                 match kv.2 with
                 | JStr x =>
                     if copied kv then
                       match dict_get kv.1 di with
                       | Some (JStr y) => String.eqb x y
                       | _ => false
                       end
                     else true
                 | JDict _ =>
                     forallb (λ kv', if String.eqb kv'.1 kv.1 && is_dict kv'.2
                                     then agrees kv.2 kv'.2 else true) di
                 | JList _ => false
                 | _ => true
                 end) si
  | _, _ => true
  end.

(** * Properties *)

(** ** Dicts as association lists *)

Lemma dict_get_elem_of k v (d : items) : dict_get k d = Some v → (k, v) ∈ d.
Proof.
  induction d as [|[k' v'] d IH]; simpl; [done|].
  destruct (String.eqb_spec k k') as [->|Hne].
  - intros [= ->]. apply list_elem_of_here.
  - intros H. apply list_elem_of_further, IH, H.
Qed.

Lemma dict_get_None k (d : items) : dict_get k d = None ↔ k ∉ keys d.
Proof.
  unfold keys. induction d as [|[k' v'] d IH]; simpl.
  - split; [intros _; apply not_elem_of_nil|done].
  - rewrite not_elem_of_cons. destruct (String.eqb_spec k k') as [->|Hne].
    + split; [done|]. by intros [? _].
    + rewrite IH. split; [by intros ?; split|by intros [_ ?]].
Qed.

Lemma dict_get_Some_key k v (d : items) : dict_get k d = Some v → k ∈ keys d.
Proof.
  intros H. destruct (decide (k ∈ keys d)) as [|Hn]; [done|].
  apply dict_get_None in Hn. congruence.
Qed.

Lemma dict_get_app k (d1 d2 : items) :
  dict_get k (d1 ++ d2) =
  match dict_get k d1 with Some v => Some v | None => dict_get k d2 end.
Proof.
  induction d1 as [|[k' v'] d1 IH]; simpl; [done|].
  by destruct (String.eqb k k').
Qed.

(** A map over the items that keeps every key maps the value found. *)
Lemma dict_get_map (f : string * value → string * value) k (d : items) :
  (∀ kv, (f kv).1 = kv.1) →
  dict_get k (map f d) = (λ v, (f (k, v)).2) <$> dict_get k d.
Proof.
  intros Hf. induction d as [|[k' v'] d IH]; simpl; [done|].
  pose proof (Hf (k', v')) as Hk. destruct (f (k', v')) as [k'' v''] eqn:E.
  simpl in Hk. subst k''.
  destruct (String.eqb_spec k k') as [->|Hne]; [|done].
  simpl. by rewrite E.
Qed.

Lemma keys_map (f : string * value → string * value) (d : items) :
  (∀ kv, (f kv).1 = kv.1) → keys (map f d) = keys d.
Proof.
  intros Hf. unfold keys. induction d as [|kv d IH]; [done|].
  cbn [map]. rewrite !fmap_cons. by f_equal.
Qed.

Lemma key_in_spec k (S : list string) : key_in k S = true ↔ k ∈ S.
Proof.
  unfold key_in. rewrite existsb_exists. split.
  - intros (x & Hx & ->%String.eqb_eq). by apply list_elem_of_In.
  - intros H. exists k. split; [by apply list_elem_of_In|apply String.eqb_refl].
Qed.

Lemma key_in_false k (S : list string) : key_in k S = false ↔ k ∉ S.
Proof.
  rewrite <-key_in_spec. destruct (key_in k S); split; congruence.
Qed.

(** ** Dicts built by a loop *)

Lemma dict_set_fresh (d : items) k v :
  k ∉ keys d → dict_set d k v = (d ++ [(k, v)])%list.
Proof.
  unfold keys. induction d as [|[k' v'] d IH]; simpl; [done|].
  rewrite not_elem_of_cons. intros [Hne Hk].
  apply String.eqb_neq in Hne as ->. by rewrite IH.
Qed.

Lemma dict_of_app (acc l : items) :
  NoDup (keys (acc ++ l)) →
  fold_left (λ d kv, dict_set d kv.1 kv.2) l acc = (acc ++ l)%list.
Proof.
  revert acc. induction l as [|[k v] l IH]; intros acc Hnd; simpl.
  - by rewrite app_nil_r.
  - rewrite dict_set_fresh.
    + rewrite IH; rewrite <-app_assoc; done.
    + unfold keys in *. rewrite fmap_app in Hnd.
      apply NoDup_app in Hnd as (_ & Hdisj & _).
      intros Hk. apply (Hdisj k Hk). left.
Qed.

(** Assignments under distinct keys build the dict that lists them. *)
Lemma dict_of_distinct (l : items) : NoDup (keys l) → dict_of l = l.
Proof. intros Hnd. unfold dict_of. by rewrite dict_of_app. Qed.

(** ** Reduction *)

Lemma clean_entry_dict d : clean_entry (JDict d) = JDict (clean_items d).
Proof.
  reflexivity.
Qed.

Lemma clean_entry_list l :
  clean_entry (JList l) =
  JList (filter (λ i, is_blank i = false) (map clean_entry l)).
Proof. done. Qed.

Lemma reduce_entries_dict d :
  reduce_entries (JDict d) = JDict (map reduce_item d).
Proof. done. Qed.

Lemma reduce_item_key kv : (reduce_item kv).1 = kv.1.
Proof.
  destruct kv as [k v]. unfold reduce_item. simpl.
  destruct v; try done. by destruct (String.eqb k "entries").
Qed.

Lemma clean_each_keys e : keys (clean_each e) = keys e.
Proof. unfold clean_each. by apply keys_map. Qed.

Lemma clean_each_get k e :
  dict_get k (clean_each e) = clean_entry <$> dict_get k e.
Proof. unfold clean_each. by rewrite dict_get_map. Qed.

(** C10.  When the [entries] key of a document holds a mapping, the reduced
    document holds under [entries] a mapping with exactly the same keys in
    the same order, each entry being replaced by its [clean_entry] image,
    whatever that image is (an empty mapping or null included). *)
Theorem reduce_entries_keeps_entry_keys (d e : items) :
  dict_get "entries" d = Some (JDict e) →
  ∃ d' e',
    reduce_entries (JDict d) = JDict d' ∧
    dict_get "entries" d' = Some (JDict e') ∧
    keys e' = keys e ∧
    ∀ k v, dict_get k e = Some v → dict_get k e' = Some (clean_entry v).
Proof.
  intros He. exists (map reduce_item d), (clean_each e).
  split; [apply reduce_entries_dict|]. split.
  - rewrite dict_get_map by apply reduce_item_key. by rewrite He.
  - split; [apply clean_each_keys|].
    intros k v Hk. by rewrite clean_each_get, Hk.
Qed.

Lemma reduce_entries_keeps_entry_keys_witness :
  ∃ d' e',
    reduce_entries
      (JDict [("entries", JDict [("a", JNum 5); ("b", JDict [("x", JNum 1)])])])
    = JDict d' ∧
    dict_get "entries" d' = Some (JDict e') ∧
    keys e' = ["a"; "b"] ∧
    ∀ k v, dict_get k [("a", JNum 5); ("b", JDict [("x", JNum 1)])] = Some v →
           dict_get k e' = Some (clean_entry v).
Proof.
  apply (reduce_entries_keeps_entry_keys
           [("entries", JDict [("a", JNum 5); ("b", JDict [("x", JNum 1)])])]
           [("a", JNum 5); ("b", JDict [("x", JNum 1)])]).
  reflexivity.
Defined.

(** Entries that reduce to null or to an empty mapping stay under their
    keys. *)
Example reduce_entries_blank_entries :
  reduce_entries
    (JDict [("entries", JDict [("a", JNum 5); ("b", JDict [("x", JNum 1)])])])
  = JDict [("entries", JDict [("a", JNull); ("b", JDict [])])].
Proof. reflexivity. Qed.

(** ** When reduction is skipped *)

Lemma has_entries_nonempty_sound v :
  contains_entries v → has_entries_nonempty v = true.
Proof.
  induction 1 as [d e kv He|d k v Hin _ IH|l v Hin _ IH]; simpl.
  - by rewrite He.
  - assert (existsb (λ kv, has_entries_nonempty kv.2) d = true) as Hex.
    { apply existsb_exists. exists (k, v).
      split; [by apply list_elem_of_In|done]. }
    rewrite Hex. by repeat case_match.
  - apply existsb_exists. exists v. split; [by apply list_elem_of_In|done].
Qed.

Lemma has_entries_nonempty_complete v :
  has_entries_nonempty v = true → contains_entries v.
Proof.
  induction v as [| | | |l IH|d IH] using value_ind'; simpl; try done.
  - intros (v & Hin%list_elem_of_In & Hv)%existsb_exists.
    rewrite Forall_forall in IH. eapply ce_element; eauto.
  - assert (existsb (λ kv, has_entries_nonempty kv.2) d = true →
            contains_entries (JDict d)) as Hrec.
    { intros ([k v] & Hin%list_elem_of_In & Hv)%existsb_exists.
      rewrite Forall_forall in IH. eapply ce_value; [done|].
      by apply (IH (k, v)). }
    destruct (dict_get "entries" d) as [[| | | | |[|kv e]]|] eqn:He; try done.
    intros _. by eapply ce_here.
Qed.

(** C9.  A document without a non-empty [entries] mapping anywhere in its
    tree gets no companion file: [reduce_file] writes nothing. *)
Theorem reduce_file_skips_without_entries (d : value) :
  ¬ contains_entries d → reduce_file d = None.
Proof.
  intros Hno. unfold reduce_file.
  destruct (has_entries_nonempty d) eqn:E; [|done].
  destruct Hno. by apply has_entries_nonempty_complete.
Qed.

Lemma reduce_file_skips_without_entries_witness :
  reduce_file
    (JDict [("label", JStr "Items");
            ("entries", JDict []);
            ("folders", JList [JDict [("name", JStr "Weapons")]])]) = None.
Proof.
  apply reduce_file_skips_without_entries.
  intros H%has_entries_nonempty_sound. vm_compute in H. discriminate H.
Defined.

(** ** The round trip on a concrete document *)

(** C5.  Reducing the document gives the companion without [value];
    merging the companion back, with [label] edited to "Espada", gives the
    original with the new [label] and [value] still 10. *)
Theorem round_trip_scenario :
  reduce_entries RoundTrip.original = RoundTrip.companion ∧
  merge_file RoundTrip.original RoundTrip.translated
  = Some RoundTrip.merged_back ∧
  (∃ a, RoundTrip.merged_back = JDict [("entries", JDict [("a", JDict a)])] ∧
        dict_get "label" a = Some (JStr "Espada") ∧
        dict_get "value" a = Some (JNum 10)).
Proof.
  split; [by vm_compute|]. split; [by vm_compute|].
  eexists. split; [reflexivity|]. by vm_compute.
Qed.

(** The document of the scenario has no sequence of mappings, so the
    reduce mode itself skips it: [has_translatable_list] is false. *)
Example round_trip_document_is_skipped :
  has_translatable_list RoundTrip.original = false ∧
  reduce_file RoundTrip.original = None.
Proof. by vm_compute. Qed.

(** The scenarios of sequence reconciliation: matching by [_id] in spite of
    the order, and the positional fallback. *)
Example merge_lists_by_id :
  merge_lists
    [JDict [("_id", JStr "x"); ("label", JStr "A")];
     JDict [("_id", JStr "y"); ("label", JStr "B")]]
    [JDict [("_id", JStr "y"); ("label", JStr "B2")];
     JDict [("_id", JStr "x"); ("label", JStr "A2")]]
  = [JDict [("_id", JStr "x"); ("label", JStr "A2")];
     JDict [("_id", JStr "y"); ("label", JStr "B2")]].
Proof. by vm_compute. Qed.

Example merge_lists_by_index :
  merge_lists
    [JDict [("label", JStr "A")]; JDict [("label", JStr "B")]]
    [JDict [("label", JStr "A2")]; JDict [("label", JStr "B2")]]
  = [JDict [("label", JStr "A2")]; JDict [("label", JStr "B2")]].
Proof. by vm_compute. Qed.

(** ** Sorting *)

Lemma insert_item_perm kv l : insert_item kv l ≡ₚ kv :: l.
Proof.
  induction l as [|kv' l IH]; simpl; [done|].
  destruct (String.leb kv.1 kv'.1); [done|].
  rewrite IH. apply Permutation_swap.
Qed.

Lemma sorted_items_perm d : sorted_items d ≡ₚ d.
Proof.
  induction d as [|kv d IH]; simpl; [done|].
  by rewrite insert_item_perm, IH.
Qed.

Lemma insert_item_hdrel a kv l :
  key_le a kv → HdRel key_le a l → HdRel key_le a (insert_item kv l).
Proof.
  intros Ha Hl. destruct l as [|kv' l]; simpl; [by constructor|].
  destruct (String.leb kv.1 kv'.1); constructor; [done|].
  by inversion Hl.
Qed.

Lemma insert_item_sorted kv l :
  Sorted key_le l → Sorted key_le (insert_item kv l).
Proof.
  induction 1 as [|kv' l Hl IH Hhd]; simpl; [by repeat constructor|].
  destruct (String.leb kv.1 kv'.1) eqn:E.
  - constructor; [by constructor|]. by constructor.
  - constructor; [done|]. apply insert_item_hdrel; [|done].
    unfold key_le. destruct (String.leb_total kv.1 kv'.1); congruence.
Qed.

Lemma sorted_items_sorted d : Sorted key_le (sorted_items d).
Proof.
  induction d as [|kv d IH]; simpl; [constructor|].
  by apply insert_item_sorted.
Qed.

(** Sorting a sorted list of items leaves it as it is. *)
Lemma sorted_items_id d : Sorted key_le d → sorted_items d = d.
Proof.
  induction 1 as [|kv l Hl IH Hhd]; simpl; [done|].
  rewrite IH. destruct Hhd as [|kv' l' Hle]; simpl; [done|].
  unfold key_le in Hle. by rewrite Hle.
Qed.

Lemma sorted_items_idemp d : sorted_items (sorted_items d) = sorted_items d.
Proof. apply sorted_items_id, sorted_items_sorted. Qed.

Lemma sort_immediate_keys_idemp v :
  sort_immediate_keys (sort_immediate_keys v) = sort_immediate_keys v.
Proof. destruct v; simpl; try done. by rewrite sorted_items_idemp. Qed.

Lemma sort_immediate_keys_is_dict v :
  is_dict (sort_immediate_keys v) = is_dict v.
Proof. by destruct v. Qed.

Lemma top_level_part_eq data :
  top_level_part data = flat_map (top_level_item data) TOP_LEVEL_KEYS_ORDER.
Proof.
  unfold top_level_part. apply flat_map_ext. intros key.
  unfold top_level_item, sort_value. destruct (dict_get key data); [|done].
  by destruct (key_in key KEYS_TO_SORT_IMMEDIATELY && is_dict v).
Qed.

Lemma sort_value_idemp key v :
  sort_value key (sort_value key v) = sort_value key v.
Proof.
  unfold sort_value.
  destruct (key_in key KEYS_TO_SORT_IMMEDIATELY); simpl; [|done].
  destruct (is_dict v) eqn:Ev; simpl; [|by rewrite Ev].
  by rewrite sort_immediate_keys_is_dict, Ev, sort_immediate_keys_idemp.
Qed.

Lemma sort_value_other key v :
  key_in key TOP_LEVEL_KEYS_ORDER = false → sort_value key v = v.
Proof.
  intros Hk. unfold sort_value.
  assert (key_in key KEYS_TO_SORT_IMMEDIATELY = false) as ->; [|done].
  apply key_in_false. apply key_in_false in Hk. intros Hin. apply Hk.
  unfold KEYS_TO_SORT_IMMEDIATELY, TOP_LEVEL_KEYS_ORDER in *.
  rewrite !elem_of_cons in Hin. rewrite !elem_of_cons. tauto.
Qed.

Lemma dict_get_top_level data (ks : list string) k :
  dict_get k (flat_map (top_level_item data) ks) =
  if key_in k ks then sort_value k <$> dict_get k data else None.
Proof.
  induction ks as [|key ks IH]; [done|].
  cbn [flat_map]. rewrite dict_get_app, IH. unfold key_in. cbn [existsb].
  fold (key_in k ks). unfold top_level_item.
  destruct (String.eqb_spec k key) as [->|Hne]; simpl.
  - destruct (dict_get key data) as [v|] eqn:E; simpl.
    + by rewrite String.eqb_refl.
    + by destruct (key_in key ks).
  - destruct (dict_get key data) as [v|] eqn:E; simpl; [|done].
    by apply String.eqb_neq in Hne as ->.
Qed.

Lemma keys_top_level data (ks : list string) :
  keys (flat_map (top_level_item data) ks) =
  filter (λ k, dict_has k data = true) ks.
Proof.
  unfold keys. induction ks as [|key ks IH]; [done|].
  cbn [flat_map]. rewrite fmap_app, IH, filter_cons.
  unfold top_level_item, dict_has.
  by destruct (dict_get key data).
Qed.

Lemma keys_other_part data :
  keys (other_part data) =
  filter (λ k, key_in k TOP_LEVEL_KEYS_ORDER = false) (keys data).
Proof.
  unfold keys, other_part. induction data as [|[k v] d IH]; [done|].
  rewrite fmap_cons, !filter_cons. simpl.
  case_decide; [rewrite fmap_cons|]; by rewrite <-IH.
Qed.

Lemma dict_get_other_part data k :
  dict_get k (other_part data) =
  if key_in k TOP_LEVEL_KEYS_ORDER then None else dict_get k data.
Proof.
  unfold other_part. induction data as [|[k' v] d IH].
  - by destruct (key_in k TOP_LEVEL_KEYS_ORDER).
  - rewrite filter_cons. simpl. case_decide as Hk'; simpl.
    + destruct (String.eqb_spec k k') as [->|Hne]; [by rewrite Hk'|done].
    + destruct (String.eqb_spec k k') as [->|Hne]; [|done].
      rewrite IH. by destruct (key_in k' TOP_LEVEL_KEYS_ORDER).
Qed.

Lemma dict_get_partial_sort data k :
  dict_get k (partial_sort_json data) = sort_value k <$> dict_get k data.
Proof.
  unfold partial_sort_json.
  rewrite dict_get_app, top_level_part_eq, dict_get_top_level, dict_get_other_part.
  destruct (key_in k TOP_LEVEL_KEYS_ORDER) eqn:Ek.
  - by destruct (dict_get k data).
  - destruct (dict_get k data); simpl; [|done]. by rewrite sort_value_other.
Qed.

Lemma keys_partial_sort data :
  keys (partial_sort_json data) =
  (filter (λ k, k ∈ keys data) TOP_LEVEL_KEYS_ORDER ++
   filter (λ k, k ∉ TOP_LEVEL_KEYS_ORDER) (keys data))%list.
Proof.
  unfold partial_sort_json, keys at 1. rewrite fmap_app.
  fold (keys (top_level_part data)). fold (keys (other_part data)).
  rewrite top_level_part_eq, keys_top_level, keys_other_part. f_equal.
  - apply list_filter_iff. intros k. unfold dict_has.
    destruct (dict_get k data) as [v|] eqn:E.
    + split; [intros _; by eapply dict_get_Some_key|done].
    + apply dict_get_None in E. split; [done|]. intros. by destruct E.
  - apply list_filter_iff. intros k. apply key_in_false.
Qed.

(** C8.  The keys of the sorted document are the keys of
    [TOP_LEVEL_KEYS_ORDER] that the document has, in that order, followed by
    its other keys in their original order.  Every key keeps its value,
    except that a mapping under [folders] or [entries] has its items
    rearranged by ascending key: the same items, values as they were.  On
    the sample document the keys come out as [label], [folders], [entries]
    and the keys inside [entries] as [a], [b]. *)
Theorem partial_sort_json_order (d : items) :
  keys (partial_sort_json d) =
    (filter (λ k, k ∈ keys d) ["label"; "mapping"; "folders"; "entries"] ++
     filter (λ k, k ∉ ["label"; "mapping"; "folders"; "entries"]) (keys d))%list
  ∧ (∀ k v, dict_get k d = Some v →
       ∃ v', dict_get k (partial_sort_json d) = Some v' ∧
         match v with
         | JDict e =>
             if decide (k = "folders" ∨ k = "entries")
             then ∃ e', v' = JDict e' ∧ e' ≡ₚ e ∧ Sorted key_le e'
             else v' = v
         | _ => v' = v
         end)
  ∧ partial_sort_json
      [("entries", JDict [("b", JNum 1); ("a", JNum 2)]);
       ("label", JStr "X"); ("folders", JDict [])]
    = [("label", JStr "X"); ("folders", JDict []);
       ("entries", JDict [("a", JNum 2); ("b", JNum 1)])].
Proof.
  split; [apply keys_partial_sort|]. split; [|by vm_compute].
  intros k v Hk. rewrite dict_get_partial_sort, Hk. simpl.
  eexists. split; [reflexivity|]. unfold sort_value.
  destruct v as [| | | | |e]; simpl; try by rewrite andb_false_r.
  rewrite andb_true_r. case_decide as Hkey.
  - assert (key_in k KEYS_TO_SORT_IMMEDIATELY = true) as ->.
    { apply key_in_spec. unfold KEYS_TO_SORT_IMMEDIATELY.
      rewrite !elem_of_cons. tauto. }
    exists (sorted_items e).
    split; [done|]. split; [apply sorted_items_perm|apply sorted_items_sorted].
  - assert (key_in k KEYS_TO_SORT_IMMEDIATELY = false) as ->; [|done].
    apply key_in_false. unfold KEYS_TO_SORT_IMMEDIATELY.
    rewrite !elem_of_cons, elem_of_nil. tauto.
Qed.

Lemma other_part_top_level data (ks : list string) :
  ks ⊆ TOP_LEVEL_KEYS_ORDER →
  other_part (flat_map (top_level_item data) ks) = [].
Proof.
  unfold other_part. induction ks as [|key ks IH]; intros Hks; [done|].
  cbn [flat_map]. rewrite filter_app, IH, app_nil_r.
  - unfold top_level_item. destruct (dict_get key data); [|done].
    rewrite filter_cons. cbn [fst]. case_decide as Hk; [|done].
    apply key_in_false in Hk. destruct Hk. apply Hks, list_elem_of_here.
  - intros k Hk. by apply Hks, list_elem_of_further.
Qed.

Lemma other_part_idemp data : other_part (other_part data) = other_part data.
Proof.
  unfold other_part. rewrite list_filter_filter. apply list_filter_iff.
  intros kv. tauto.
Qed.

Lemma top_level_item_partial_sort data key :
  top_level_item (partial_sort_json data) key = top_level_item data key.
Proof.
  unfold top_level_item. rewrite dict_get_partial_sort.
  destruct (dict_get key data); simpl; [|done]. by rewrite sort_value_idemp.
Qed.

Lemma partial_sort_json_fixed (d : items) :
  partial_sort_json (partial_sort_json d) = partial_sort_json d.
Proof.
  unfold partial_sort_json at 1 3. f_equal.
  - rewrite !top_level_part_eq. apply flat_map_ext. intros key.
    apply top_level_item_partial_sort.
  - unfold partial_sort_json, other_part at 1. rewrite filter_app.
    fold (other_part (top_level_part d)). fold (other_part (other_part d)).
    rewrite top_level_part_eq, other_part_top_level by done.
    apply other_part_idemp.
Qed.

(** C6.  Sorting a sorted document changes nothing: the top-level keys keep
    their order and the mappings under [folders] and [entries] keep theirs;
    so what is written for a sorted document is that document. *)
Theorem partial_sort_json_idempotent (d : items) :
  partial_sort_json (partial_sort_json d) = partial_sort_json d ∧
  sort_file (JDict d) = Some (JDict (partial_sort_json d)) ∧
  sort_file (JDict (partial_sort_json d)) = Some (JDict (partial_sort_json d)).
Proof.
  split; [apply partial_sort_json_fixed|]. split; [done|].
  simpl. by rewrite partial_sort_json_fixed.
Qed.

(** ** The lookup tables of [merge_lists] *)

Lemma elem_of_dict_indices_from n l j :
  j ∈ dict_indices_from n l ↔ n ≤ j ∧ is_dict_at l (j - n) = true.
Proof.
  revert n. induction l as [|it l IH]; intros n; simpl.
  - rewrite elem_of_nil. unfold is_dict_at. rewrite lookup_nil.
    split; [done|]. by intros [_ ?].
  - assert (j ∈ dict_indices_from (S n) l ↔
            S n ≤ j ∧ is_dict_at (it :: l) (j - n) = true) as Hrest.
    { rewrite IH. unfold is_dict_at. split; intros [Hle H]; (split; [lia|]).
      - by replace (j - n) with (S (j - S n)) by lia.
      - by replace (j - n) with (S (j - S n)) in H by lia. }
    destruct (is_dict it) eqn:Eit.
    + rewrite elem_of_cons, Hrest. split.
      * intros [->|[? ?]]; [|split; [lia|done]].
        split; [lia|]. by rewrite Nat.sub_diag.
      * intros [Hle H]. destruct (decide (j = n)) as [->|]; [by left|].
        right. split; [lia|done].
    + rewrite Hrest. split; [intros [? ?]; split; [lia|done]|].
      intros [Hle H]. split; [|done].
      destruct (decide (j = n)) as [->|]; [|lia].
      rewrite Nat.sub_diag in H. unfold is_dict_at in H. simpl in H. congruence.
Qed.

Lemma elem_of_dict_indices l j :
  j ∈ dict_indices l ↔ is_dict_at l j = true.
Proof.
  unfold dict_indices. rewrite elem_of_dict_indices_from, Nat.sub_0_r.
  split; [by intros [_ ?]|]. split; [lia|done].
Qed.

Lemma dict_indices_from_sorted n l : StronglySorted lt (dict_indices_from n l).
Proof.
  revert n. induction l as [|it l IH]; intros n; simpl; [constructor|].
  destruct (is_dict it); [|apply IH].
  constructor; [apply IH|]. apply Forall_forall. intros j Hj.
  apply elem_of_dict_indices_from in Hj. lia.
Qed.

Lemma dict_indices_sorted l : StronglySorted lt (dict_indices l).
Proof. apply dict_indices_from_sorted. Qed.

Lemma field_at_is_dict k l i s : field_at k l i = Some s → is_dict_at l i = true.
Proof.
  unfold field_at, is_dict_at. destruct (l !! i) as [v|]; [|done].
  simpl. by destruct v.
Qed.

(** The table after the assignments for [idx], started from [m]: a key is
    bound to the last index of [idx] that carries it, or is as in [m]. *)
Lemma index_by_fold k l (idx : list nat) (m : gmap string nat) key i :
  fold_left (λ m i, match l !! i ≫= str_field k with
                    | Some s => <[s:=i]> m
                    | None => m
                    end) idx m !! key = Some i ↔
  (∃ pre post, idx = pre ++ i :: post ∧ field_at k l i = Some key ∧
               ∀ j, j ∈ post → field_at k l j ≠ Some key) ∨
  (m !! key = Some i ∧ ∀ j, j ∈ idx → field_at k l j ≠ Some key).
Proof.
  revert m. induction idx as [|a idx IH]; intros m.
  - simpl. split.
    + intros H. right. split; [done|]. intros j Hj. by apply elem_of_nil in Hj.
    + intros [(pre & post & Hnil & _)|[H _]]; [|done].
      by destruct pre.
  - cbn [fold_left]. rewrite IH. fold (field_at k l a). split.
    + intros [(pre & post & -> & Hi & Hpost)|[Hm Hidx]].
      * left. by exists (a :: pre), post.
      * destruct (field_at k l a) as [s|] eqn:Ea.
        -- destruct (decide (s = key)) as [->|Hne].
           ++ rewrite lookup_insert_eq in Hm. injection Hm as ->.
              left. by exists [], idx.
           ++ rewrite lookup_insert_ne in Hm by done.
              right. split; [done|]. intros j [->|Hj]%elem_of_cons; [|by apply Hidx].
              congruence.
        -- right. split; [done|].
           intros j [->|Hj]%elem_of_cons; [congruence|by apply Hidx].
    + intros [(pre & post & Heq & Hi & Hpost)|[Hm Hidx]].
      * destruct pre as [|b pre]; simplify_eq/=.
        -- right. rewrite Hi. rewrite lookup_insert_eq. split; [done|]. done.
        -- left. by exists pre, post.
      * right. split; [|intros j Hj; apply Hidx; by right].
        destruct (field_at k l a) as [s|] eqn:Ea; [|done].
        rewrite lookup_insert_ne; [done|]. intros ->.
        by apply (Hidx a); [left|].
Qed.

(** A table maps a key to the last index of the source list whose element
    is a dict holding that key as a string under [k]. *)
Lemma index_by_last k l key i :
  index_by k l (dict_indices l) !! key = Some i ↔
  field_at k l i = Some key ∧ ∀ j, i < j → field_at k l j ≠ Some key.
Proof.
  unfold index_by. rewrite index_by_fold, lookup_empty. split.
  - intros [(pre & post & Heq & Hi & Hpost)|[? _]]; [|done].
    split; [done|]. intros j Hij Hj.
    pose proof (field_at_is_dict _ _ _ _ Hj) as Hd.
    apply elem_of_dict_indices in Hd. rewrite Heq in Hd.
    pose proof (dict_indices_sorted l) as Hs. rewrite Heq in Hs.
    apply elem_of_app in Hd as [Hd|Hd].
    + pose proof (StronglySorted_app_1_elem_of _ _ _ j i Hs Hd) as Hlt.
      specialize (Hlt ltac:(left)). lia.
    + apply elem_of_cons in Hd as [->|Hd]; [lia|]. by apply (Hpost j).
  - intros [Hi Hlast]. left.
    pose proof (field_at_is_dict _ _ _ _ Hi) as Hd.
    apply elem_of_dict_indices, list_elem_of_split in Hd as (pre & post & Heq).
    exists pre, post. split; [done|]. split; [done|].
    intros j Hj. apply Hlast.
    pose proof (dict_indices_sorted l) as Hs. rewrite Heq in Hs.
    apply StronglySorted_app_1_r, StronglySorted_cons in Hs as [Hs _].
    rewrite Forall_forall in Hs. by apply Hs.
Qed.

(** C3, as amended.  [by_id] binds a string to an index exactly when the
    source element at that index is a mapping whose [_id] is that string
    and no later element is such a mapping: of several elements with the
    same [_id] the last one is the one found.  [by_name] does the same with
    [name]. *)
Theorem lookup_tables_last_occurrence (src_list : list value) key i :
  (by_id src_list !! key = Some i ↔
     field_at "_id" src_list i = Some key ∧
     ∀ j, i < j → field_at "_id" src_list j ≠ Some key) ∧
  (by_name src_list !! key = Some i ↔
     field_at "name" src_list i = Some key ∧
     ∀ j, i < j → field_at "name" src_list j ≠ Some key).
Proof. split; apply index_by_last. Qed.

(** C3 as stated fails: with two source elements of the same [_id] (or the
    same [name]) the tables hold the index of the second, not of the
    first. *)
Lemma lookup_tables_first_occurrence_fails :
  let src_list :=
    [JDict [("_id", JStr "x"); ("name", JStr "n"); ("label", JStr "first")];
     JDict [("_id", JStr "x"); ("name", JStr "n"); ("label", JStr "second")]] in
  field_at "_id" src_list 0 = Some "x" ∧
  by_id src_list !! "x" ≠ Some 0 ∧ by_id src_list !! "x" = Some 1 ∧
  field_at "name" src_list 0 = Some "n" ∧
  by_name src_list !! "n" ≠ Some 0 ∧ by_name src_list !! "n" = Some 1.
Proof. by vm_compute. Qed.

(** ** Merge: what can change in the destination *)

Lemma merged_refl v : merged v v.
Proof.
  induction v as [| | | |l IH|d IH] using value_ind';
    try (by apply merged_leaf).
  - apply merged_list. induction IH; by constructor.
  - rewrite <-(app_nil_r d) at 2. apply merged_dict; [|by constructor].
    induction IH as [|kv d Hkv _ IHd]; constructor; [|done].
    split; [done|by left].
Qed.

Lemma merged_str_inv v v' : is_str v = true → merged v v' → v' = v.
Proof. intros Hs Hm. destruct v; try done. by inversion Hm. Qed.

Lemma merged_trans v1 v2 v3 : merged v1 v2 → merged v2 v3 → merged v1 v3.
Proof.
  revert v2 v3.
  induction v1 as [| | | |l IH|d IH] using value_ind'; intros v2 v3 Hab Hbc;
    try (by inversion Hab; subst).
  - inversion Hab as [|? l' Hll'|]; subst; [done|].
    inversion Hbc as [|? l'' Hl'l''|]; subst; [done|].
    apply merged_list. clear Hab Hbc.
    revert l'' Hl'l''. induction Hll' as [|x y l l' Hxy _ IHl]; intros l'' H2.
    + by inversion H2.
    + inversion H2 as [|? z ? l2 Hyz Hrest]; subst.
      apply Forall_cons in IH as [IHx IHrest].
      constructor; [by eapply IHx|by apply IHl].
  - inversion Hab as [| |? d' e1 Hdd' He1]; subst; [done|].
    inversion Hbc as [| |d0 d'' e2 Hd'd'' He2]; subst; [done|].
    apply Forall2_app_inv_l in Hd'd'' as (da & db & Hda & Hdb & ->).
    rewrite <-app_assoc. apply merged_dict.
    + clear Hab Hbc Hdb He1. revert da Hda.
      induction Hdd' as [|x y d d' Hxy _ IHd]; intros da H2.
      * by inversion H2.
      * inversion H2 as [|? z ? d2 Hyz Hrest]; subst.
        apply Forall_cons in IH as [IHx IHrest].
        constructor; [|by apply IHd].
        destruct Hxy as [Hk1 Hv1], Hyz as [Hk2 Hv2].
        split; [congruence|].
        destruct Hv2 as [Hv2|Hv2]; [|right; by rewrite Hk1].
        destruct Hv1 as [Hv1|Hv1]; [left; by eapply IHx|].
        right. destruct Hv1 as (? & ? & Hstr).
        by rewrite (merged_str_inv _ _ Hstr Hv2).
    + apply Forall_app. split; [|done].
      clear Hab Hbc Hdd' Hda IH. revert db Hdb.
      induction He1 as [|x e1 Hx _ IHe]; intros db H2.
      * inversion H2. constructor.
      * inversion H2 as [|? z ? d2 [Hk Hv] Hrest]; subst.
        constructor; [|by apply IHe].
        destruct Hv as [Hv|Hv]; [|by rewrite <-Hk].
        destruct Hx as (? & ? & Hstr).
        rewrite <-Hk, (merged_str_inv _ _ Hstr Hv). done.
Qed.

Lemma Forall2_merged_refl l : Forall2 merged l l.
Proof. induction l; constructor; [apply merged_refl|done]. Qed.

Lemma Forall2_merged_trans l1 l2 l3 :
  Forall2 merged l1 l2 → Forall2 merged l2 l3 → Forall2 merged l1 l3.
Proof.
  intros H12 H23. eapply Forall2_trans; [|done..].
  intros ???. apply merged_trans.
Qed.

(** ** One run of [merge_lists] *)

Lemma fold_left_invariant {A B} (I : A → Prop) (f : A → B → A) l a :
  I a → (∀ a b, I a → I (f a b)) → I (fold_left f l a).
Proof.
  intros Ha Hf. revert a Ha. induction l as [|b l IH]; intros a Ha; [done|].
  simpl. by apply IH, Hf.
Qed.

Ltac pass_key_cases :=
  unfold pass_key; repeat case_match; try done.

Section merge_lists_facts.
Variable merge_at : nat → value → value.
Variable src_list : list value.

Lemma merge_pair_length st di si :
  length (ms_dst (merge_pair merge_at st di si)) = length (ms_dst st).
Proof.
  unfold merge_pair. destruct (ms_dst st !! di); [|done].
  simpl. apply length_insert.
Qed.

Lemma pass_key_length k table st di :
  length (ms_dst (pass_key merge_at k table st di)) = length (ms_dst st).
Proof. pass_key_cases. apply merge_pair_length. Qed.

Lemma pass_id_length dl :
  length (ms_dst (pass_id merge_at src_list dl)) = length dl.
Proof.
  unfold pass_id.
  apply (fold_left_invariant (λ st, length (ms_dst st) = length dl)); [done|].
  intros st di <-. apply pass_key_length.
Qed.

Lemma pass_name_length dl :
  length (ms_dst (pass_name merge_at src_list dl)) = length dl.
Proof.
  unfold pass_name.
  apply (fold_left_invariant (λ st, length (ms_dst st) = length dl));
    [apply pass_id_length|].
  intros st di <-. apply pass_key_length.
Qed.

Lemma merge_lists_run_length dl :
  length (ms_dst (merge_lists_run merge_at src_list dl)) = length dl.
Proof.
  unfold merge_lists_run, pass_index.
  apply (fold_left_invariant (λ st, length (ms_dst st) = length dl));
    [apply pass_name_length|].
  intros st p <-. apply merge_pair_length.
Qed.

Lemma merge_pair_consumed_once st di si :
  si ∉ ms_used st → consumed_once st →
  consumed_once (merge_pair merge_at st di si).
Proof.
  intros Hsi [Hused Hnd]. unfold merge_pair.
  destruct (ms_dst st !! di); [|done]. split; simpl.
  - intros sj. rewrite fmap_app, elem_of_app, elem_of_union, elem_of_singleton.
    simpl. rewrite list_elem_of_singleton, Hused. tauto.
  - rewrite fmap_app. apply NoDup_app. split; [done|]. split.
    + intros sj Hsj. simpl. rewrite list_elem_of_singleton. intros ->.
      by apply Hsi, Hused.
    + apply NoDup_singleton.
Qed.

Lemma pass_key_consumed_once k table st di :
  consumed_once st → consumed_once (pass_key merge_at k table st di).
Proof. intros Hst. pass_key_cases. by apply merge_pair_consumed_once. Qed.

Lemma pass_name_consumed_once dl :
  consumed_once (pass_name merge_at src_list dl).
Proof.
  unfold pass_name, pass_id.
  apply fold_left_invariant; [|intros; by apply pass_key_consumed_once].
  apply fold_left_invariant; [|intros; by apply pass_key_consumed_once].
  split; simpl; [|constructor]. intros si. by rewrite elem_of_nil.
Qed.

(** A merge at an index of the destination list goes to the history. *)
Lemma merge_pair_log st di si :
  di < length (ms_dst st) →
  ms_log (merge_pair merge_at st di si) = ms_log st ++ [(di, si)] ∧
  ms_used (merge_pair merge_at st di si) = {[si]} ∪ ms_used st.
Proof.
  intros Hdi. unfold merge_pair.
  destruct (ms_dst st !! di) eqn:E; [done|].
  apply lookup_ge_None in E. lia.
Qed.

(** The positional pass: the pairs are merged one after the other. *)
Lemma positional_fold (pairs : list (nat * nat)) st :
  (∀ p, p ∈ pairs → p.1 < length (ms_dst st)) →
  ms_log (fold_left (λ st p, merge_pair merge_at st p.1 p.2) pairs st)
  = ms_log st ++ pairs.
Proof.
  revert st. induction pairs as [|[di si] pairs IH]; intros st Hlt.
  - simpl. by rewrite app_nil_r.
  - cbn [fold_left fst snd]. rewrite IH.
    + destruct (merge_pair_log st di si) as [-> _].
      * apply (Hlt (di, si)). left.
      * by rewrite <-app_assoc.
    + intros p Hp. rewrite merge_pair_length. apply Hlt. by right.
Qed.
End merge_lists_facts.

Lemma fold_left_invariant_in {A B} (I : A → Prop) (f : A → B → A) l a :
  I a → (∀ a b, b ∈ l → I a → I (f a b)) → I (fold_left f l a).
Proof.
  revert a. induction l as [|b l IH]; intros a Ha Hf; [done|].
  simpl. apply IH.
  - apply Hf; [left|done].
  - intros a' b' Hb'. apply Hf. by right.
Qed.

Lemma zip_snd_sublist {A B} (l : list A) (k : list B) : (zip l k).*2 `sublist_of` k.
Proof.
  revert k. induction l as [|x l IH]; intros [|y k]; simpl;
    try apply sublist_nil_l.
  apply sublist_skip, IH.
Qed.

Lemma filter_all {A} (P : A → Prop) `{∀ x, Decision (P x)} (l : list A) :
  (∀ x, x ∈ l → P x) → filter P l = l.
Proof.
  induction l as [|x l IH]; intros Hl; [done|].
  rewrite filter_cons_True by (apply Hl; left).
  f_equal. apply IH. intros y Hy. apply Hl. by right.
Qed.

Lemma merged_is_dict v v' : merged v v' → is_dict v' = is_dict v.
Proof. by inversion 1. Qed.

Lemma Forall2_merged_is_dict_at l l' i :
  Forall2 merged l l' → is_dict_at l' i = is_dict_at l i.
Proof.
  intros H. unfold is_dict_at.
  destruct (l !! i) as [v|] eqn:E.
  - destruct (Forall2_lookup_l _ _ _ _ _ H E) as (v' & -> & Hv).
    by apply merged_is_dict.
  - apply lookup_ge_None in E. rewrite (Forall2_length _ _ _ H) in E.
    apply lookup_ge_None in E. by rewrite E.
Qed.

Section merge_lists_merged.
Variable merge_at : nat → value → value.
Variable src_list : list value.
Hypothesis merge_at_merged : ∀ si d, merged d (merge_at si d).

Lemma merge_pair_merged st di si :
  Forall2 merged (ms_dst st) (ms_dst (merge_pair merge_at st di si)).
Proof.
  unfold merge_pair. destruct (ms_dst st !! di) as [d|] eqn:E;
    [|apply Forall2_merged_refl].
  simpl. rewrite <-(list_insert_id _ _ _ E) at 1.
  apply Forall2_insert; [apply Forall2_merged_refl|apply merge_at_merged].
Qed.

Lemma pass_key_merged k table st di :
  Forall2 merged (ms_dst st) (ms_dst (pass_key merge_at k table st di)).
Proof.
  pass_key_cases; try apply Forall2_merged_refl. apply merge_pair_merged.
Qed.

Lemma pass_name_merged dl :
  Forall2 merged dl (ms_dst (pass_name merge_at src_list dl)).
Proof.
  unfold pass_name, pass_id.
  apply (fold_left_invariant (λ st, Forall2 merged dl (ms_dst st))).
  - apply (fold_left_invariant (λ st, Forall2 merged dl (ms_dst st)));
      [apply Forall2_merged_refl|].
    intros st di Hst. eapply Forall2_merged_trans; [done|apply pass_key_merged].
  - intros st di Hst. eapply Forall2_merged_trans; [done|apply pass_key_merged].
Qed.

Lemma merge_lists_run_merged dl :
  Forall2 merged dl (ms_dst (merge_lists_run merge_at src_list dl)).
Proof.
  unfold merge_lists_run, pass_index.
  apply (fold_left_invariant (λ st, Forall2 merged dl (ms_dst st)));
    [apply pass_name_merged|].
  intros st p Hst. eapply Forall2_merged_trans; [done|apply merge_pair_merged].
Qed.

(** Every destination index of a mapping is still one after the first two
    passes, so [rem_dst] is [dst_idx]. *)
Lemma rem_dst_all dl :
  filter (λ di, is_dict_at (ms_dst (pass_name merge_at src_list dl)) di = true)
         (dict_indices dl)
  = dict_indices dl.
Proof.
  apply filter_all. intros di Hdi.
  rewrite (Forall2_merged_is_dict_at _ _ _ (pass_name_merged dl)).
  by apply elem_of_dict_indices.
Qed.
End merge_lists_merged.

(** ** The recursive merge *)

Lemma merge_translations_dict d s :
  merge_translations (JDict d) (JDict s)
  = JDict (merge_items_with merge_rec s d).
Proof. done. Qed.

Lemma merge_translations_not_dict dst src :
  is_dict dst && is_dict src = false → merge_translations dst src = dst.
Proof. by destruct dst, src. Qed.

Lemma nth_map_rec (rec : value → value → value) sl si d :
  nth si (map rec sl) (λ d, d) d
  = match sl !! si with Some s => rec s d | None => d end.
Proof.
  revert si. induction sl as [|s sl IH]; intros [|si]; simpl; done.
Qed.

Lemma dict_set_shape d k v :
  copyable k v →
  ∃ d' extra, dict_set d k v = (d' ++ extra)%list ∧
              Forall2 merged_item d d' ∧
              Forall (λ kv, copyable kv.1 kv.2) extra.
Proof.
  intros Hc. induction d as [|[k' v'] d IH]; simpl.
  - exists [], [(k, v)]. split; [done|]. split; [constructor|].
    constructor; [exact Hc|constructor].
  - destruct (String.eqb_spec k k') as [<-|Hne].
    + exists ((k, v) :: d), []. rewrite app_nil_r. split; [done|].
      split; [|constructor]. constructor.
      * split; [done|by right].
      * clear. induction d as [|kv d IH]; constructor; [|done].
        split; [done|left; apply merged_refl].
    + destruct IH as (d' & extra & -> & Hd & He).
      exists ((k', v') :: d'), extra. split; [done|]. split; [|done].
      constructor; [|done]. split; [done|left; apply merged_refl].
Qed.

Lemma copy_items_merged d s : merged (JDict d) (JDict (copy_items d s)).
Proof.
  unfold copy_items.
  apply (fold_left_invariant (λ d1, merged (JDict d) (JDict d1)));
    [apply merged_refl|].
  intros d1 [k v] Hd1. cbn [fst snd].
  destruct (String.eqb_spec k "_id") as [->|Hid]; [done|].
  destruct (is_str v) eqn:Ev, (key_in k TRANSLATABLE_KEYS) eqn:Ek; try done.
  simpl. eapply merged_trans; [done|].
  destruct (dict_set_shape d1 k v) as (d' & extra & -> & ? & ?); [done|].
  by apply merged_dict.
Qed.

Lemma merged_dict_map (f : string * value → value) (d : items) :
  (∀ kv, merged kv.2 (f kv)) →
  merged (JDict d) (JDict (map (λ kv, (kv.1, f kv)) d)).
Proof.
  intros Hf. rewrite <-(app_nil_r (map _ d)). apply merged_dict; [|constructor].
  induction d as [|kv d IH]; simpl; constructor; [|done].
  split; [done|]. left. apply Hf.
Qed.

Lemma merge_lists_with_merged sl dl :
  Forall (λ x, ∀ d, merged d (merge_rec x d)) sl →
  Forall2 merged dl (merge_lists_with merge_rec sl dl).
Proof.
  intros Hsl. unfold merge_lists_with. apply merge_lists_run_merged.
  intros si d. rewrite nth_map_rec.
  destruct (sl !! si) as [s|] eqn:E; [|apply merged_refl].
  rewrite Forall_forall in Hsl. apply Hsl. by eapply list_elem_of_lookup_2.
Qed.

Lemma same_key_with_merged s k v :
  Forall (λ kv, merges_well kv.2) s → merged v (same_key_with merge_rec s k v).
Proof.
  induction 1 as [|[k' sv] s [Hsv Hel] _ IH]; simpl; [apply merged_refl|].
  destruct (String.eqb k k'); [|done].
  destruct sv, v; try apply merged_refl.
  - apply merged_list. by apply merge_lists_with_merged.
  - apply Hsv.
Qed.

Lemma cross_lists_with_merged s dl :
  Forall (λ kv, merges_well kv.2) s →
  Forall2 merged dl (cross_lists_with merge_rec s dl).
Proof.
  intros Hs. revert dl.
  induction Hs as [|[k' sv] s [Hsv Hel] _ IH]; intros dl; simpl;
    [apply Forall2_merged_refl|].
  destruct sv; try apply IH.
  eapply Forall2_merged_trans; [|apply IH]. by apply merge_lists_with_merged.
Qed.

Lemma merge_items_with_merged s d :
  Forall (λ kv, merges_well kv.2) s →
  merged (JDict d) (JDict (merge_items_with merge_rec s d)).
Proof.
  intros Hs. unfold merge_items_with.
  eapply merged_trans; [apply copy_items_merged|].
  eapply merged_trans.
  - apply (merged_dict_map (λ kv, same_key_with merge_rec s kv.1 kv.2)).
    intros kv. by apply same_key_with_merged.
  - match goal with |- merged _ (JDict (map ?g ?l)) =>
      replace (map g l) with
        (map (λ kv, (kv.1, match kv.2 with
                           | JList dl => JList (cross_lists_with merge_rec s dl)
                           | _ => kv.2
                           end)) l)
    end.
    + apply (merged_dict_map
               (λ kv, match kv.2 with
                      | JList dl => JList (cross_lists_with merge_rec s dl)
                      | _ => kv.2
                      end)).
      intros [k v]. simpl. destruct v; try apply merged_refl.
      apply merged_list. by apply cross_lists_with_merged.
    + apply map_ext. intros [k v]. by destruct v.
Qed.

Lemma merge_rec_merges_well s : merges_well s.
Proof.
  induction s as [| | | |sl IH|sd IH] using value_ind';
    try (split; [intros d; apply merged_refl|done]).
  - split; [intros d; apply merged_refl|].
    eapply Forall_impl; [done|]. by intros x [Hx _].
  - split; [|done]. intros d. destruct d; try apply merged_refl.
    by apply merge_items_with_merged.
Qed.

(** Merging any source into any destination leaves a [merged] destination. *)
Lemma merge_translations_merged dst src :
  merged dst (merge_translations dst src).
Proof. apply merge_rec_merges_well. Qed.

Lemma merge_at_src_merged (src_list : list value) (si : nat) d :
  merged d (merge_at_src src_list si d).
Proof.
  unfold merge_at_src.
  destruct (src_list !! si); [apply merge_translations_merged|apply merged_refl].
Qed.

Lemma merge_lists_merged dst_list src_list :
  Forall2 merged dst_list (merge_lists dst_list src_list).
Proof.
  unfold merge_lists, merge_lists_trace. apply merge_lists_run_merged.
  intros si d. apply merge_at_src_merged.
Qed.

(** ** Keys and values of the destination after a merge *)

Lemma dict_get_set_ne k k' v (d : items) :
  k ≠ k' → dict_get k (dict_set d k' v) = dict_get k d.
Proof.
  intros Hne. induction d as [|[k0 v0] d IH]; simpl.
  - by apply String.eqb_neq in Hne as ->.
  - destruct (String.eqb_spec k' k0) as [->|Hne0]; simpl.
    + by apply String.eqb_neq in Hne as ->.
    + by rewrite IH.
Qed.

Lemma keys_dict_set (d : items) k v :
  keys (dict_set d k v) = if dict_has k d then keys d else (keys d ++ [k])%list.
Proof.
  unfold dict_has, keys. induction d as [|[k0 v0] d IH]; simpl; [done|].
  destruct (String.eqb_spec k k0) as [->|Hne]; [done|].
  rewrite fmap_cons, IH. by destruct (dict_get k d).
Qed.

Lemma elem_of_keys_dict_set (d : items) k v k' :
  k' ∈ keys (dict_set d k v) ↔ k' ∈ keys d ∨ k' = k.
Proof.
  rewrite keys_dict_set. unfold dict_has.
  destruct (dict_get k d) as [v0|] eqn:E.
  - apply dict_get_Some_key in E. split; [by left|]. by intros [?| ->].
  - by rewrite elem_of_app, list_elem_of_singleton.
Qed.

Lemma copied_spec kv : copied kv = true ↔ copyable kv.1 kv.2.
Proof.
  unfold copied, copyable.
  rewrite !andb_true_iff, negb_true_iff, String.eqb_neq. tauto.
Qed.

Lemma copy_items_cons d kv s :
  copy_items d (kv :: s) =
  copy_items (if copied kv then dict_set d kv.1 kv.2 else d) s.
Proof.
  unfold copy_items, copied. cbn [fold_left].
  by destruct (String.eqb kv.1 "_id").
Qed.

Lemma elem_of_keys_copy_items d s k :
  k ∈ keys (copy_items d s) ↔ k ∈ keys d ∨ ∃ v, (k, v) ∈ s ∧ copyable k v.
Proof.
  revert d. induction s as [|[k' v'] s IH]; intros d.
  - unfold copy_items. simpl. split; [by left|].
    intros [?|(v & Hin & _)]; [done|]. by apply elem_of_nil in Hin.
  - rewrite copy_items_cons, IH. cbn [fst snd].
    destruct (copied (k', v')) eqn:Ec.
    + apply copied_spec in Ec. rewrite elem_of_keys_dict_set. split.
      * intros [[?| ->]|(v & Hin & Hc)]; [by left| |].
        -- right. exists v'. split; [left|done].
        -- right. exists v. split; [by right|done].
      * intros [?|(v & [[= -> ->]|Hin]%elem_of_cons & Hc)];
          [by left; left|by left; right|].
        right. by exists v.
    + split.
      * intros [?|(v & Hin & Hc)]; [by left|].
        right. exists v. split; [by right|done].
      * intros [?|(v & [[= -> ->]|Hin]%elem_of_cons & Hc)]; [by left| |].
        -- apply (copied_spec (k', v')) in Hc. congruence.
        -- right. by exists v.
Qed.

Lemma keys_copy_items_prefix d s :
  ∃ extra, keys (copy_items d s) = (keys d ++ extra)%list.
Proof.
  revert d. induction s as [|kv s IH]; intros d.
  - exists []. by rewrite app_nil_r.
  - rewrite copy_items_cons. destruct (copied kv); [|apply IH].
    destruct (IH (dict_set d kv.1 kv.2)) as [extra ->].
    rewrite keys_dict_set. destruct (dict_has kv.1 d); [by eexists|].
    rewrite <-app_assoc. by eexists.
Qed.

Lemma copy_items_get_other k d s :
  (∀ v, (k, v) ∈ s → ¬ copyable k v) →
  dict_get k (copy_items d s) = dict_get k d.
Proof.
  revert d. induction s as [|[k' v'] s IH]; intros d Hk; [done|].
  rewrite copy_items_cons, IH.
  - destruct (copied (k', v')) eqn:Ec; [|done]. cbn [fst snd].
    apply dict_get_set_ne. intros ->.
    apply copied_spec in Ec. apply (Hk v'); [left|done].
  - intros v Hv. apply Hk. by right.
Qed.

Lemma keys_merge_items s d :
  keys (merge_items_with merge_rec s d) = keys (copy_items d s).
Proof.
  unfold merge_items_with. rewrite !keys_map; [done|done|].
  intros [k v]. by destruct v.
Qed.

Lemma dict_get_merge_items s d k :
  dict_get k (merge_items_with merge_rec s d) =
  (λ v, match same_key_with merge_rec s k v with
        | JList dl => JList (cross_lists_with merge_rec s dl)
        | v' => v'
        end) <$> dict_get k (copy_items d s).
Proof.
  unfold merge_items_with. rewrite !dict_get_map.
  - destruct (dict_get k (copy_items d s)) as [v|]; [|done]. simpl.
    by destruct (same_key_with merge_rec s k v).
  - done.
  - intros [k' v]. by destruct v.
Qed.

Lemma merged_list_inv l v' :
  merged (JList l) v' → ∃ l', v' = JList l' ∧ Forall2 merged l l'.
Proof. inversion 1; subst; [done|by eexists]. Qed.

Lemma merged_leaf_inv v v' : is_container v = false → merged v v' → v' = v.
Proof. intros Hv Hm. by inversion Hm; subst. Qed.

Lemma merged_item_lookup (d d' extra : items) k v :
  Forall2 merged_item d d' → dict_get k d = Some v →
  ∃ v', dict_get k (d' ++ extra) = Some v' ∧ (merged v v' ∨ copyable k v').
Proof.
  induction 1 as [|[k1 v1] [k2 v2] d d' [Hk Hv] _ IH]; simpl; [done|].
  simpl in Hk, Hv. subst k2.
  destruct (String.eqb_spec k k1) as [->|Hne]; [|done].
  intros [= ->]. by exists v2.
Qed.

(** A mapping with a scalar [_id] keeps that [_id] through any number of
    merges. *)
Lemma merged_keeps_id (e : items) v v' :
  dict_get "_id" e = Some v → is_container v = false →
  merged (JDict e) v' →
  ∃ e', v' = JDict e' ∧ dict_get "_id" e' = Some v.
Proof.
  intros He Hv Hm. inversion Hm as [| |? d' extra Hd Hextra]; subst; [done|].
  exists (d' ++ extra)%list. split; [done|].
  destruct (merged_item_lookup _ _ extra _ _ Hd He) as (v' & Hv' & [Hm'|Hc]).
  - by rewrite Hv', (merged_leaf_inv _ _ Hv Hm').
  - by destruct Hc as [? _].
Qed.

Lemma all_merge_well (s : items) : Forall (λ kv, merges_well kv.2) s.
Proof. apply Forall_forall. intros kv _. apply merge_rec_merges_well. Qed.

(** C1, as amended.  A merge keeps every key of the destination in its
    place and can add keys after them: the keys of the result are those of
    the destination and the translatable keys other than [_id] under which
    the source holds a string.  A key of the destination that held a
    sequence holds a sequence of the same length afterwards, provided the
    source holds no such string under that key.  Sequence reconciliation
    never changes the length of the destination sequence.  At every depth
    the result is [merged] from the destination: a mapping keeps its keys
    in their places and gains only strings under translatable keys other
    than [_id], a sequence keeps its length, a scalar stays, and the one
    other change to a value, whatever it held, mapping and sequence
    included, is a string under such a key put in its place. *)
Theorem merge_keeps_keys_and_lengths (d s : items) :
  ∃ d_after,
    merge_translations (JDict d) (JDict s) = JDict d_after ∧
    (∃ extra, keys d_after = (keys d ++ extra)%list) ∧
    (∀ k, k ∈ keys d_after ↔
          k ∈ keys d ∨ ∃ v, (k, v) ∈ s ∧ copyable k v) ∧
    (∀ k l, dict_get k d = Some (JList l) →
            (∀ v, (k, v) ∈ s → ¬ copyable k v) →
            ∃ l', dict_get k d_after = Some (JList l') ∧
                  length l' = length l) ∧
    (∀ dl sl, length (merge_lists dl sl) = length dl) ∧
    merged (JDict d) (JDict d_after).
Proof.
  exists (merge_items_with merge_rec s d). split; [done|].
  split; [rewrite keys_merge_items; apply keys_copy_items_prefix|].
  split; [intros k; rewrite keys_merge_items; apply elem_of_keys_copy_items|].
  split; [|split].
  - intros k l Hk Hs.
    rewrite dict_get_merge_items, (copy_items_get_other _ _ _ Hs), Hk. simpl.
    pose proof (same_key_with_merged s k (JList l) (all_merge_well s)) as H1.
    apply merged_list_inv in H1 as (l1 & -> & H1).
    exists (cross_lists_with merge_rec s l1). split; [done|].
    pose proof (cross_lists_with_merged s l1 (all_merge_well s)) as H2.
    apply Forall2_length in H1, H2. congruence.
  - intros dl sl. symmetry. eapply Forall2_length, merge_lists_merged.
  - apply merge_items_with_merged, all_merge_well.
Qed.

(** C1 as stated fails: the string [name] of the source replaces the
    sequence the destination held under [name], and the [label] of the
    source becomes a new key of the destination. *)
Lemma merge_changes_keys_and_sequences :
  let d := [("name", JList [JNum 1; JNum 2])] in
  let s := [("name", JStr "N"); ("label", JStr "X")] in
  let d_after := [("name", JStr "N"); ("label", JStr "X")] in
  merge_translations (JDict d) (JDict s) = JDict d_after ∧
  keys d = ["name"] ∧ keys d_after = ["name"; "label"] ∧
  dict_get "name" d = Some (JList [JNum 1; JNum 2]) ∧
  dict_get "name" d_after = Some (JStr "N").
Proof. by vm_compute. Qed.

(** The same below the top: the string the source holds under
    [description] replaces the sequence, or the mapping, that the nested
    destination mapping held there. *)
Lemma merge_replaces_nested_containers :
  merge_translations
    (JDict [("system", JDict [("description", JList [JNum 1; JNum 2; JNum 3])])])
    (JDict [("system", JDict [("description", JStr "x")])])
  = JDict [("system", JDict [("description", JStr "x")])] ∧
  merge_translations
    (JDict [("system", JDict [("description", JDict [("b", JNum 1)])])])
    (JDict [("system", JDict [("description", JStr "x")])])
  = JDict [("system", JDict [("description", JStr "x")])].
Proof. by vm_compute. Qed.

(** C4.  A merge never overwrites identity.  A mapping whose [_id] is a
    scalar (a string, as the data model has it; also a number, a boolean or
    null) has the same [_id] after any source was merged into it, whatever
    the source holds under [_id], and after a sequence it is an element of
    was reconciled with any source sequence, however many source elements
    were merged into it: so it is at every mapping the recursion reaches. *)
Theorem merge_keeps_scalar_id (e : items) (v : value) :
  dict_get "_id" e = Some v → is_container v = false →
  (∀ src, ∃ e', merge_translations (JDict e) src = JDict e' ∧
                dict_get "_id" e' = Some v) ∧
  (∀ (dl sl : list value) (i : nat),
     dl !! i = Some (JDict e) →
     ∃ e', merge_lists dl sl !! i = Some (JDict e') ∧
           dict_get "_id" e' = Some v).
Proof.
  intros He Hv. split.
  - intros src. apply (merged_keeps_id e v); [done..|].
    apply merge_translations_merged.
  - intros dl sl i Hi.
    destruct (Forall2_lookup_l _ _ _ _ _ (merge_lists_merged dl sl) Hi)
      as (v' & Hv' & Hm).
    destruct (merged_keeps_id e v v' He Hv Hm) as (e' & -> & He').
    by exists e'.
Qed.

Lemma merge_keeps_scalar_id_witness :
  (∀ src, ∃ e', merge_translations
                  (JDict [("_id", JStr "x"); ("label", JStr "A")]) src
                = JDict e' ∧
                dict_get "_id" e' = Some (JStr "x")) ∧
  (∀ (dl sl : list value) (i : nat),
     dl !! i = Some (JDict [("_id", JStr "x"); ("label", JStr "A")]) →
     ∃ e', merge_lists dl sl !! i = Some (JDict e') ∧
           dict_get "_id" e' = Some (JStr "x")).
Proof.
  apply (merge_keeps_scalar_id [("_id", JStr "x"); ("label", JStr "A")]
                               (JStr "x")); reflexivity.
Defined.

(** Outside the data model, where [_id] is a string: were both [_id] values
    mappings, the loop over the keys of the destination would merge the
    source one into the destination one, like the values of any key. *)
Lemma merge_changes_mapping_id :
  let d := [("_id", JDict [("x", JNum 1)])] in
  let s := [("_id", JDict [("label", JStr "L")])] in
  let d_after := [("_id", JDict [("x", JNum 1); ("label", JStr "L")])] in
  merge_translations (JDict d) (JDict s) = JDict d_after ∧
  dict_get "_id" d = Some (JDict [("x", JNum 1)]) ∧
  dict_get "_id" d_after
  = Some (JDict [("x", JNum 1); ("label", JStr "L")]) ∧
  dict_get "_id" d_after ≠ dict_get "_id" d.
Proof. by vm_compute. Qed.

(** ** Which elements [merge_lists] pairs *)

Section merge_lists_history.
Variable merge_at : nat → value → value.
Variable src_list : list value.
Variables (P Q : nat → Prop).

Lemma merge_pair_within st di si :
  P di → Q si → log_within P Q st → log_within P Q (merge_pair merge_at st di si).
Proof.
  intros Hdi Hsi Hst. unfold merge_pair.
  destruct (ms_dst st !! di); [|done]. intros p. simpl.
  rewrite elem_of_app, list_elem_of_singleton. intros [Hp| ->]; [by apply Hst|done].
Qed.

Lemma pass_key_within k (table : gmap string nat) st di :
  (∀ key si, table !! key = Some si → Q si) →
  P di → log_within P Q st → log_within P Q (pass_key merge_at k table st di).
Proof.
  intros Htable Hdi Hst. pass_key_cases.
  apply merge_pair_within; [done| |done]. by eapply Htable.
Qed.
End merge_lists_history.

Lemma index_by_is_dict k (src_list : list value) key si :
  index_by k src_list (dict_indices src_list) !! key = Some si →
  is_dict_at src_list si = true.
Proof. intros [H _]%index_by_last. by eapply field_at_is_dict. Qed.

Lemma merge_lists_keyed_within dl sl :
  log_within (λ di, is_dict_at dl di = true) (λ si, is_dict_at sl si = true)
             (merge_lists_keyed dl sl).
Proof.
  unfold merge_lists_keyed, pass_name, pass_id.
  apply fold_left_invariant_in.
  - apply fold_left_invariant_in; [intros p Hp; by apply elem_of_nil in Hp|].
    intros st di Hdi Hst. apply pass_key_within; [|by apply elem_of_dict_indices|done].
    intros key si. apply index_by_is_dict.
  - intros st di Hdi Hst. apply pass_key_within; [|by apply elem_of_dict_indices|done].
    intros key si. apply index_by_is_dict.
Qed.

Lemma positional_pairs_fallback dl sl :
  positional_pairs (merge_lists_keyed dl sl) (dict_indices dl) (dict_indices sl)
  = fallback_pairs dl sl.
Proof.
  unfold positional_pairs, fallback_pairs, merge_lists_keyed.
  rewrite rem_dst_all; [done|]. apply merge_at_src_merged.
Qed.

Lemma merge_lists_trace_log dl sl :
  ms_log (merge_lists_trace dl sl)
  = (ms_log (merge_lists_keyed dl sl) ++ fallback_pairs dl sl)%list.
Proof.
  unfold merge_lists_trace, merge_lists_run, pass_index.
  fold (merge_lists_keyed dl sl). rewrite positional_pairs_fallback.
  apply positional_fold. intros [di si] Hp.
  apply elem_of_zip_l, elem_of_dict_indices in Hp. cbn [fst].
  unfold merge_lists_keyed. rewrite pass_name_length.
  unfold is_dict_at in Hp. destruct (dl !! di) eqn:E; [|done].
  by eapply lookup_lt_Some.
Qed.

Lemma dict_indices_NoDup l : NoDup (dict_indices l).
Proof.
  pose proof (dict_indices_sorted l) as Hs.
  induction Hs as [|i idx _ IH Hall]; constructor; [|done].
  intros Hi. rewrite Forall_forall in Hall. specialize (Hall i Hi). lia.
Qed.

Lemma merge_lists_trace_NoDup dl sl : NoDup (ms_log (merge_lists_trace dl sl)).*2.
Proof.
  rewrite merge_lists_trace_log, fmap_app.
  destruct (pass_name_consumed_once (merge_at_src sl) sl dl) as [Hused Hnd].
  fold (merge_lists_keyed dl sl) in Hused, Hnd.
  pose proof (zip_snd_sublist (dict_indices dl)
    (filter (λ si, si ∉ ms_used (merge_lists_keyed dl sl)) (dict_indices sl)))
    as Hsub.
  apply NoDup_app. split; [done|]. split.
  - intros si Hsi Hin. apply Hused in Hsi.
    apply (elem_of_sublist _ _ _ Hin) in Hsub.
    by apply list_elem_of_filter in Hsub as [Hnot _].
  - eapply sublist_NoDup; [|exact Hsub].
    apply NoDup_filter, dict_indices_NoDup.
Qed.

Lemma replay_snoc sl log dl di si :
  replay sl (log ++ [(di, si)]) dl =
  match replay sl log dl !! di with
  | Some d => <[di := merge_at_src sl si d]> (replay sl log dl)
  | None => replay sl log dl
  end.
Proof. unfold replay. by rewrite fold_left_app. Qed.

Lemma merge_pair_replayed sl dl st di si :
  replayed sl dl st → replayed sl dl (merge_pair (merge_at_src sl) st di si).
Proof.
  unfold replayed, merge_pair. intros Hst.
  destruct (ms_dst st !! di) as [d|] eqn:E; [|done]. simpl.
  by rewrite replay_snoc, <-Hst, E.
Qed.

Lemma pass_key_replayed sl dl k table st di :
  replayed sl dl st → replayed sl dl (pass_key (merge_at_src sl) k table st di).
Proof. intros Hst. pass_key_cases. by apply merge_pair_replayed. Qed.

Lemma merge_lists_trace_replayed dl sl :
  replayed sl dl (merge_lists_trace dl sl).
Proof.
  unfold merge_lists_trace, merge_lists_run, pass_index, pass_name, pass_id.
  apply fold_left_invariant; [|intros; by apply merge_pair_replayed].
  apply fold_left_invariant; [|intros; by apply pass_key_replayed].
  apply fold_left_invariant; [|intros; by apply pass_key_replayed].
  done.
Qed.

(** One run of [merge_lists], whatever the lists: no source element is
    merged twice; the merges pair destination mappings with source
    mappings only, and the destination list is the outcome of these merges
    in their order; [used_src] after the loops by [_id] and by [name] is
    the set of source elements merged so far; the positional loop then
    goes through [rem_dst], which is all the destination mappings in
    order, against the source mappings not in [used_src], in order, as far
    as the shorter of the two goes. *)
Lemma merge_lists_run_history (dl sl : list value) :
  let keyed := merge_lists_keyed dl sl in
  let final := merge_lists_trace dl sl in
  let rem_src := filter (λ si, si ∉ ms_used keyed) (dict_indices sl) in
  NoDup (ms_log final).*2 ∧
  (∀ di si, (di, si) ∈ ms_log final →
            is_dict_at dl di = true ∧ is_dict_at sl si = true) ∧
  merge_lists dl sl = replay sl (ms_log final) dl ∧
  (∀ si, si ∈ ms_used keyed ↔ si ∈ (ms_log keyed).*2) ∧
  ms_log final = (ms_log keyed ++ zip (dict_indices dl) rem_src)%list ∧
  length (zip (dict_indices dl) rem_src)
  = length (dict_indices dl) `min` length rem_src.
Proof.
  intros keyed final rem_src.
  split; [apply merge_lists_trace_NoDup|]. split; [|split; [|split; [|split]]].
  - intros di si. unfold final. rewrite merge_lists_trace_log, elem_of_app.
    intros [Hp|Hp].
    + by apply (merge_lists_keyed_within dl sl (di, si)).
    + split.
      * by apply elem_of_zip_l, elem_of_dict_indices in Hp.
      * apply elem_of_zip_r, list_elem_of_filter in Hp as [_ Hp].
        by apply elem_of_dict_indices.
  - apply merge_lists_trace_replayed.
  - apply (pass_name_consumed_once (merge_at_src sl) sl dl).
  - apply merge_lists_trace_log.
  - apply length_zip.
Qed.

(** C2.  The code breaks the claim.  Two destination records are both
    matched by [_id], and the source has one record more.  After the loops
    by [_id] and by [name] no destination record remains and one source
    record does, so the positional loop should pair nothing.  But [rem_dst]
    repeats the test of [dst_idx] and filters nothing, where [rem_src]
    leaves out the elements of [used_src]: the leftover source record is
    merged into the first destination record, which is merged a second
    time and ends with the [name] of a record of another [_id]. *)
Theorem merge_lists_remerges_matched :
  let dl := [JDict [("_id", JStr "a"); ("name", JStr "Sword")];
             JDict [("_id", JStr "b"); ("name", JStr "Bow")]] in
  let sl := [JDict [("_id", JStr "a"); ("name", JStr "Espada")];
             JDict [("_id", JStr "b"); ("name", JStr "Arco")];
             JDict [("_id", JStr "c"); ("name", JStr "Extra")]] in
  dict_indices dl = [0; 1] ∧
  ms_log (merge_lists_keyed dl sl) = [(0, 0); (1, 1)] ∧
  ms_dst (merge_lists_keyed dl sl)
  = [JDict [("_id", JStr "a"); ("name", JStr "Espada")];
     JDict [("_id", JStr "b"); ("name", JStr "Arco")]] ∧
  ms_log (merge_lists_trace dl sl) = [(0, 0); (1, 1); (0, 2)] ∧
  ¬ NoDup (ms_log (merge_lists_trace dl sl)).*1 ∧
  merge_lists dl sl
  = [JDict [("_id", JStr "a"); ("name", JStr "Extra")];
     JDict [("_id", JStr "b"); ("name", JStr "Arco")]].
Proof.
  split; [by vm_compute|]. split; [by vm_compute|]. split; [by vm_compute|].
  split; [by vm_compute|]. split; [|by vm_compute].
  assert ((ms_log (merge_lists_trace
             [JDict [("_id", JStr "a"); ("name", JStr "Sword")];
              JDict [("_id", JStr "b"); ("name", JStr "Bow")]]
             [JDict [("_id", JStr "a"); ("name", JStr "Espada")];
              JDict [("_id", JStr "b"); ("name", JStr "Arco")];
              JDict [("_id", JStr "c"); ("name", JStr "Extra")]])).*1
          = [0; 1; 0]) as -> by by vm_compute.
  intros [Hn _]%NoDup_cons. apply Hn. right. left.
Qed.

(** ** Reduction only filters *)

Lemma clean_entry_scalar v : is_container v = false → clean_entry v = JNull.
Proof. by destruct v. Qed.

Lemma clean_entry_not_blank v :
  is_blank (clean_entry v) = false → is_container v = true.
Proof. by destruct v. Qed.

(** An item of the reduced mapping is an item of the mapping kept as it
    is, or the non-blank reduction of a container of the mapping. *)
Lemma elem_of_clean_items k v' (d : items) :
  (k, v') ∈ clean_items d →
  ∃ v, (k, v) ∈ d ∧ (v' = v ∨ (is_container v = true ∧ v' = clean_entry v)).
Proof.
  induction d as [|[k0 v0] d IH]; simpl; [by intros ?%elem_of_nil|].
  assert ((k, v') ∈ clean_items d →
          ∃ v, (k, v) ∈ (k0, v0) :: d ∧
               (v' = v ∨ (is_container v = true ∧ v' = clean_entry v))) as Hrest.
  { intros (v & Hin & Hv)%IH. exists v. split; [by right|done]. }
  destruct (key_in k0 KEEP_KEYS).
  { intros [[= -> ->]|Hin]%elem_of_cons; [|by apply Hrest].
    exists v0. split; [left|by left]. }
  destruct (is_container v0) eqn:Ec; [|done].
  destruct (is_blank (clean_entry v0)); [done|].
  intros [[= -> ->]|Hin]%elem_of_cons; [|by apply Hrest].
  exists v0. split; [left|by right].
Qed.

Lemma elem_of_clean_list v' (l : list value) :
  v' ∈ filter (λ i, is_blank i = false) (map clean_entry l) →
  ∃ v, v ∈ l ∧ is_container v = true ∧ v' = clean_entry v.
Proof.
  intros [Hnb Hin]%list_elem_of_filter.
  apply list_elem_of_In, in_map_iff in Hin as (v & <- & Hv).
  exists v. split; [by apply list_elem_of_In|].
  split; [by apply clean_entry_not_blank|done].
Qed.

Lemma clean_entry_leaf d p x :
  is_container d = true → leaf_at p (clean_entry d) x → leaf_at p d x.
Proof.
  revert p x. induction d as [| | | |l IH|d IH] using value_ind';
    intros p x Hc; try done.
  - rewrite clean_entry_list. inversion 1 as [| |? ? v' ? Hin Hleaf]; subst; [done|].
    apply elem_of_clean_list in Hin as (v & Hv & Hcv & ->).
    rewrite Forall_forall in IH. eapply leaf_element; [done|]. by apply IH.
  - rewrite clean_entry_dict. inversion 1 as [|k ? ? v' ? Hin Hleaf|]; subst; [done|].
    apply elem_of_clean_items in Hin as (v & Hv & [->|[Hcv ->]]).
    + by eapply leaf_value.
    + rewrite Forall_forall in IH. eapply leaf_value; [done|].
      by apply (IH (k, v)).
Qed.

Lemma clean_entry_key d p : key_at p (clean_entry d) → key_at p d.
Proof.
  revert p. induction d as [| | | |l IH|d IH] using value_ind'; intros p;
    try (by inversion 1).
  - rewrite clean_entry_list. inversion 1 as [| |? ? v' Hin Hkey]; subst.
    apply elem_of_clean_list in Hin as (v & Hv & Hcv & ->).
    rewrite Forall_forall in IH. eapply key_element; [done|]. by apply IH.
  - rewrite clean_entry_dict.
    inversion 1 as [k ? v' Hin|k ? ? v' Hin Hkey|]; subst;
      apply elem_of_clean_items in Hin as (v & Hv & Hcases).
    + by eapply key_here.
    + destruct Hcases as [->|[Hcv ->]]; [by eapply key_value|].
      rewrite Forall_forall in IH. eapply key_value; [done|].
      by apply (IH (k, v)).
Qed.

Lemma elem_of_reduce_items k v' (d : items) :
  (k, v') ∈ map reduce_item d → ∃ v, (k, v) ∈ d ∧ reduce_item (k, v) = (k, v').
Proof.
  intros ([k0 v] & Heq & Hin)%list_elem_of_In%in_map_iff.
  pose proof (reduce_item_key (k0, v)) as Hk. rewrite Heq in Hk.
  simpl in Hk. subst k0. exists v. split; [by apply list_elem_of_In|done].
Qed.

Lemma elem_of_clean_each k v' (e : items) :
  (k, v') ∈ clean_each e → ∃ v, (k, v) ∈ e ∧ v' = clean_entry v.
Proof.
  unfold clean_each.
  intros ([k0 v] & [= -> <-] & Hin)%list_elem_of_In%in_map_iff.
  exists v. split; [by apply list_elem_of_In|done].
Qed.

Lemma forallb_elem_of {A} (f : A → bool) (l : list A) x :
  forallb f l = true → x ∈ l → f x = true.
Proof.
  rewrite forallb_forall. intros H Hx. by apply H, list_elem_of_In.
Qed.

Lemma reduce_entries_leaf d p x :
  entries_hold_containers d = true →
  leaf_at p (reduce_entries d) x → leaf_at p d x.
Proof.
  revert p x. induction d as [| | | |l IH|d IH] using value_ind';
    intros p x Hok; try done.
  rewrite reduce_entries_dict.
  inversion 1 as [|k p' ? v' ? Hin Hleaf|]; subst; [done|].
  apply elem_of_reduce_items in Hin as (v & Hv & Hred).
  simpl in Hok. pose proof (forallb_elem_of _ _ _ Hok Hv) as Hkv.
  rewrite Forall_forall in IH. specialize (IH (k, v) Hv). simpl in IH, Hkv.
  eapply leaf_value; [done|].
  unfold reduce_item in Hred. simpl in Hred.
  destruct v as [| | | |l|e]; try by (injection Hred as <-).
  destruct (String.eqb k "entries").
  - injection Hred as <-.
    inversion Hleaf as [|ek p'' ? ev' ? Hine Hleafe|]; subst; [done|].
    apply elem_of_clean_each in Hine as (ev & Hev & ->).
    eapply leaf_value; [done|]. apply clean_entry_leaf; [|done].
    by apply (forallb_elem_of _ _ (ek, ev) Hkv).
  - injection Hred as <-. by apply IH.
Qed.

Lemma reduce_entries_key d p : key_at p (reduce_entries d) → key_at p d.
Proof.
  revert p. induction d as [| | | |l IH|d IH] using value_ind';
    intros p; try done.
  rewrite reduce_entries_dict.
  inversion 1 as [k ? v' Hin|k p' ? v' Hin Hkey|]; subst;
    apply elem_of_reduce_items in Hin as (v & Hv & Hred);
    [by eapply key_here|].
  rewrite Forall_forall in IH. specialize (IH (k, v) Hv). simpl in IH.
  eapply key_value; [done|].
  unfold reduce_item in Hred. simpl in Hred.
  destruct v as [| | | |l|e]; try by (injection Hred as <-).
  destruct (String.eqb k "entries").
  - injection Hred as <-.
    inversion Hkey as [ek ? ev' Hine|ek p'' ? ev' Hine Hkeye|]; subst;
      apply elem_of_clean_each in Hine as (ev & Hev & ->).
    + by eapply key_here.
    + eapply key_value; [done|]. by apply clean_entry_key.
  - injection Hred as <-. by apply IH.
Qed.

Lemma keys_clean_items_sublist (d : items) :
  keys (clean_items d) `sublist_of` keys d.
Proof.
  unfold keys. induction d as [|[k v] d IH]; simpl; [done|].
  destruct (key_in k KEEP_KEYS); [by apply sublist_skip|].
  destruct (is_container v); [|by apply sublist_cons].
  destruct (is_blank (clean_entry v)); [by apply sublist_cons|].
  by apply sublist_skip.
Qed.

(** What [clean_entry] leaves of a sequence: the elements whose reduction
    is not blank, each reduced. *)
Lemma clean_list_filtered (l : list value) :
  Forall (λ v, is_container v = true → filtered v (clean_entry v)) l →
  ∃ l0, l0 `sublist_of` l ∧
        Forall2 filtered l0 (filter (λ i, is_blank i = false) (map clean_entry l)).
Proof.
  induction 1 as [|v l Hv _ (l0 & Hsub & Hall)]; [by exists []|].
  cbn [map]. rewrite filter_cons. case_decide as Hb.
  - exists (v :: l0). split; [by apply sublist_skip|].
    constructor; [|done]. by apply Hv, clean_entry_not_blank.
  - exists l0. split; [by apply sublist_cons|done].
Qed.

(** What [clean_entry] leaves of a mapping: the items under the keys of
    [KEEP_KEYS], as they are, and the containers under other keys whose
    reduction is not blank, reduced. *)
Lemma clean_items_filtered (d : items) :
  Forall (λ kv, is_container kv.2 = true → filtered kv.2 (clean_entry kv.2)) d →
  ∃ d0, d0 `sublist_of` d ∧
        Forall2 (λ kv kv', kv.1 = kv'.1 ∧ filtered kv.2 kv'.2) d0 (clean_items d).
Proof.
  induction 1 as [|[k v] d Hv _ (d0 & Hsub & Hall)]; [by exists []|].
  cbn [clean_items]. cbn [snd] in Hv.
  destruct (key_in k KEEP_KEYS).
  { exists ((k, v) :: d0). split; [by apply sublist_skip|].
    constructor; [|done]. split; [done|apply filtered_same]. }
  destruct (is_container v) eqn:Ec.
  - cbn zeta. destruct (is_blank (clean_entry v)).
    + exists d0. split; [by apply sublist_cons|done].
    + exists ((k, v) :: d0). split; [by apply sublist_skip|].
      constructor; [|done]. split; [done|by apply Hv].
  - exists d0. split; [by apply sublist_cons|done].
Qed.

Lemma clean_entry_filtered (v : value) :
  is_container v = true → filtered v (clean_entry v).
Proof.
  induction v as [| | | |l IH|d IH] using value_ind'; try done; intros _.
  - rewrite clean_entry_list.
    destruct (clean_list_filtered l IH) as (l0 & Hsub & Hall).
    by apply (filtered_list l l0).
  - rewrite clean_entry_dict.
    destruct (clean_items_filtered d IH) as (d0 & Hsub & Hall).
    by apply (filtered_dict d d0).
Qed.

Lemma Forall2_map_self {A} (R : A → A → Prop) (f : A → A) (l : list A) :
  Forall (λ x, R x (f x)) l → Forall2 R l (map f l).
Proof. induction 1; by constructor. Qed.

Lemma reduce_entries_filtered (d : value) :
  entries_hold_containers d = true → filtered d (reduce_entries d).
Proof.
  induction d as [| | | |l IH|d IH] using value_ind';
    try (intros _; apply filtered_same).
  intros Hok. rewrite reduce_entries_dict.
  apply (filtered_dict d d); [done|].
  apply Forall2_map_self, Forall_forall. intros [k v] Hin.
  rewrite reduce_item_key. split; [done|].
  cbn [entries_hold_containers] in Hok.
  pose proof (forallb_elem_of _ _ _ Hok Hin) as Hkv.
  rewrite Forall_forall in IH. specialize (IH (k, v) Hin).
  cbn [fst snd] in IH, Hkv. unfold reduce_item. cbn [fst snd].
  destruct v as [| | | |l|e]; try apply filtered_same.
  destruct (String.eqb k "entries"); [|by apply IH].
  apply (filtered_dict e e); [done|].
  apply Forall2_map_self, Forall_forall. intros [ek ev] Hine.
  split; [done|]. cbn [snd]. apply clean_entry_filtered.
  by apply (forallb_elem_of _ _ (ek, ev) Hkv).
Qed.

(** What is [filtered] has no leaf and no key of its own. *)
Lemma filtered_leaf (v v' : value) p x :
  filtered v v' → leaf_at p v' x → leaf_at p v x.
Proof.
  revert v' p x. induction v as [| | | |l IH|d IH] using value_ind';
    intros v' p x Hf; inversion Hf as [|? l0 l' Hsub Hall|? d0 d' Hsub Hall];
    subst; try done.
  - inversion 1 as [| |? ? y' ? Hin Hleaf]; subst; [done|].
    apply list_elem_of_lookup in Hin as [i Hi].
    destruct (Forall2_lookup_r _ _ _ _ _ Hall Hi) as (y & Hy & Hfy).
    apply list_elem_of_lookup_2 in Hy.
    pose proof (elem_of_sublist _ _ _ Hy Hsub) as Hyl.
    rewrite Forall_forall in IH. eapply leaf_element; [done|]. by eapply IH.
  - inversion 1 as [|k ? ? y' ? Hin Hleaf|]; subst; [done|].
    apply list_elem_of_lookup in Hin as [i Hi].
    destruct (Forall2_lookup_r _ _ _ _ _ Hall Hi) as ([k0 y] & Hy & Hk & Hfy).
    cbn [fst snd] in Hk, Hfy. subst k0.
    apply list_elem_of_lookup_2 in Hy.
    pose proof (elem_of_sublist _ _ _ Hy Hsub) as Hyl.
    rewrite Forall_forall in IH. eapply leaf_value; [done|].
    by eapply (IH (k, y)).
Qed.

Lemma filtered_key (v v' : value) p :
  filtered v v' → key_at p v' → key_at p v.
Proof.
  revert v' p. induction v as [| | | |l IH|d IH] using value_ind';
    intros v' p Hf; inversion Hf as [|? l0 l' Hsub Hall|? d0 d' Hsub Hall];
    subst; try done.
  - inversion 1 as [| |? ? y' Hin Hkey]; subst.
    apply list_elem_of_lookup in Hin as [i Hi].
    destruct (Forall2_lookup_r _ _ _ _ _ Hall Hi) as (y & Hy & Hfy).
    apply list_elem_of_lookup_2 in Hy.
    pose proof (elem_of_sublist _ _ _ Hy Hsub) as Hyl.
    rewrite Forall_forall in IH. eapply key_element; [done|]. by eapply IH.
  - inversion 1 as [k ? y' Hin|k ? ? y' Hin Hkey|]; subst;
      apply list_elem_of_lookup in Hin as [i Hi];
      destruct (Forall2_lookup_r _ _ _ _ _ Hall Hi) as ([k0 y] & Hy & Hk & Hfy);
      cbn [fst snd] in Hk, Hfy; subst k0;
      apply list_elem_of_lookup_2 in Hy;
      pose proof (elem_of_sublist _ _ _ Hy Hsub) as Hyl.
    + by eapply key_here.
    + rewrite Forall_forall in IH. eapply key_value; [done|].
      by eapply (IH (k, y)).
Qed.

(** C7, as amended.  [clean_entry] only removes keys and elements: the
    reduction of a mapping or sequence is [filtered] from it, which holds
    the order and the number of what is kept at every depth; so every leaf
    of the reduction is a leaf of the node under the same key path, every
    path of keys of the reduction is one of the node, and the keys of a
    reduced mapping are keys of the mapping, in their order.
    [reduce_entries] introduces no key either; it only removes keys and
    elements, and its leaves are leaves of the document under the same key
    path, when every value directly inside an [entries] mapping is a
    mapping or a sequence. *)
Theorem reduction_only_filters (d : value) (p : list string) (x : value) :
  (is_container d = true → filtered d (clean_entry d)) ∧
  (is_container d = true → leaf_at p (clean_entry d) x → leaf_at p d x) ∧
  (key_at p (clean_entry d) → key_at p d) ∧
  (∀ e, d = JDict e → ∃ e', clean_entry d = JDict e' ∧
                            keys e' `sublist_of` keys e) ∧
  (entries_hold_containers d = true → filtered d (reduce_entries d)) ∧
  (entries_hold_containers d = true →
   leaf_at p (reduce_entries d) x → leaf_at p d x) ∧
  (key_at p (reduce_entries d) → key_at p d).
Proof.
  split; [apply clean_entry_filtered|].
  split; [apply clean_entry_leaf|]. split; [apply clean_entry_key|].
  split; [|split; [apply reduce_entries_filtered|
                   split; [apply reduce_entries_leaf|apply reduce_entries_key]]].
  intros e ->. exists (clean_items e).
  split; [apply clean_entry_dict|apply keys_clean_items_sublist].
Qed.

(** C7 as stated fails: an entry that is a number comes out of
    [reduce_entries] as null, a leaf the document does not have there. *)
Lemma reduce_entries_fabricates_null :
  let d := JDict [("entries", JDict [("a", JNum 5)])] in
  reduce_entries d = JDict [("entries", JDict [("a", JNull)])] ∧
  leaf_at ["entries"; "a"] (reduce_entries d) JNull ∧
  ¬ leaf_at ["entries"; "a"] d JNull.
Proof.
  split; [done|]. split.
  - eapply leaf_value; [left|]. eapply leaf_value; [left|]. by apply leaf_here.
  - inversion 1 as [|? ? ? v ? Hin Hleaf|]; subst.
    apply list_elem_of_singleton in Hin as [= ->].
    inversion Hleaf as [|? ? ? v ? Hin' Hleaf'|]; subst.
    apply list_elem_of_singleton in Hin' as [= ->].
    inversion Hleaf'.
Qed.

(** ** Distinct keys stay distinct *)

(** The dicts the functions build have distinct keys when the dicts they
    read have: the lists of assignments that model them are the dicts
    built. *)

Lemma clean_items_distinct (d : items) :
  NoDup (keys d) →
  NoDup (keys (clean_items d)) ∧ dict_of (clean_items d) = clean_items d.
Proof.
  intros Hnd.
  assert (NoDup (keys (clean_items d))) as Hc.
  { eapply sublist_NoDup; [exact Hnd|apply keys_clean_items_sublist]. }
  split; [done|by apply dict_of_distinct].
Qed.

Lemma clean_each_distinct (e : items) :
  NoDup (keys e) →
  NoDup (keys (clean_each e)) ∧ dict_of (clean_each e) = clean_each e.
Proof.
  intros Hnd. assert (NoDup (keys (clean_each e))) as Hc.
  { by rewrite clean_each_keys. }
  split; [done|by apply dict_of_distinct].
Qed.

Lemma reduce_items_distinct (d : items) :
  NoDup (keys d) →
  NoDup (keys (map reduce_item d)) ∧
  dict_of (map reduce_item d) = map reduce_item d.
Proof.
  intros Hnd. assert (NoDup (keys (map reduce_item d))) as Hc.
  { rewrite keys_map; [done|apply reduce_item_key]. }
  split; [done|by apply dict_of_distinct].
Qed.

Lemma sorted_items_distinct (d : items) :
  NoDup (keys d) →
  NoDup (keys (sorted_items d)) ∧ dict_of (sorted_items d) = sorted_items d.
Proof.
  intros Hnd. assert (NoDup (keys (sorted_items d))) as Hc.
  { unfold keys. by rewrite sorted_items_perm. }
  split; [done|by apply dict_of_distinct].
Qed.

Lemma partial_sort_json_distinct (d : items) :
  NoDup (keys d) →
  NoDup (keys (partial_sort_json d)) ∧
  dict_of (partial_sort_json d) = partial_sort_json d.
Proof.
  intros Hnd. assert (NoDup (keys (partial_sort_json d))) as Hc.
  { rewrite keys_partial_sort. apply NoDup_app. split; [|split].
    - apply NoDup_filter. unfold TOP_LEVEL_KEYS_ORDER.
      apply (bool_decide_unpack _). by vm_compute.
    - intros k [_ Hk]%list_elem_of_filter [Hnk _]%list_elem_of_filter. done.
    - by apply NoDup_filter. }
  split; [done|by apply dict_of_distinct].
Qed.

Lemma dict_set_distinct (d : items) k v :
  NoDup (keys d) → NoDup (keys (dict_set d k v)).
Proof.
  intros Hnd. rewrite keys_dict_set. unfold dict_has.
  destruct (dict_get k d) eqn:E; [done|].
  apply dict_get_None in E. apply NoDup_app. split; [done|].
  split; [|apply NoDup_singleton].
  intros k' Hk' ->%list_elem_of_singleton. done.
Qed.

Lemma merge_items_distinct (s d : items) :
  NoDup (keys d) → NoDup (keys (merge_items_with merge_rec s d)).
Proof.
  intros Hnd. rewrite keys_merge_items. unfold copy_items.
  apply (fold_left_invariant (λ d1, NoDup (keys d1))); [done|].
  intros d1 kv Hd1. repeat case_match; try done. by apply dict_set_distinct.
Qed.

(** * Further properties of the code *)

(** ** Reducing what is reduced *)

Lemma value_eqb_refl v : value_eqb v v = true.
Proof.
  induction v as [|b|n|s|l IH|d IH] using value_ind'; simpl; try done.
  - by destruct b.
  - apply Z.eqb_refl.
  - apply String.eqb_refl.
  - induction IH as [|x l Hx _ IHl]; [done|]. by rewrite Hx, IHl.
  - induction IH as [|[k v] d Hx _ IHd]; [done|].
    simpl in Hx. by rewrite String.eqb_refl, Hx, IHd.
Qed.

Lemma value_eqb_eq v1 v2 : value_eqb v1 v2 = true ↔ v1 = v2.
Proof.
  split; [|intros ->; apply value_eqb_refl].
  revert v2. induction v1 as [|b|n|s|l IH|d IH] using value_ind';
    intros [|b2|n2|s2|l2|d2]; simpl; try done.
  - by intros ->%Bool.eqb_prop.
  - by intros ->%Z.eqb_eq.
  - by intros ->%String.eqb_eq.
  - intros H. f_equal. revert l2 H.
    induction IH as [|x l Hx _ IHl]; intros [|y l2]; try done.
    intros [Hxy Hrest]%andb_true_iff. f_equal; [by apply Hx|by apply IHl].
  - intros H. f_equal. revert d2 H.
    induction IH as [|[k v] d Hx _ IHd]; intros [|[k2 v2] d2]; try done.
    intros [[Hk Hv]%andb_true_iff Hrest]%andb_true_iff.
    apply String.eqb_eq in Hk as ->. simpl in Hx.
    f_equal; [f_equal; by apply Hx|by apply IHd].
Qed.

Lemma has_reduction_false a b :
  has_reduction a b = false ↔ sort_keys a = sort_keys b.
Proof.
  unfold has_reduction. rewrite negb_false_iff. apply value_eqb_eq.
Qed.

Lemma filter_map_fixed {A} (f : A → A) (P : A → Prop) `{∀ x, Decision (P x)}
      (l : list A) :
  Forall (λ x, f (f x) = f x) l →
  filter P (map f (filter P (map f l))) = filter P (map f l).
Proof.
  induction 1 as [|x l Hx _ IH]; [done|].
  cbn [map]. rewrite filter_cons. case_decide as HP.
  - cbn [map]. rewrite Hx, filter_cons_True by done. by rewrite IH.
  - done.
Qed.

Lemma clean_entry_fixed v : clean_entry (clean_entry v) = clean_entry v.
Proof.
  induction v as [| | | |l IH|d IH] using value_ind'; try done.
  - rewrite !clean_entry_list. f_equal. by apply filter_map_fixed.
  - rewrite !clean_entry_dict. f_equal.
    induction IH as [|[k v] d Hv _ IHd]; [done|]. simpl in Hv. simpl.
    destruct (key_in k KEEP_KEYS) eqn:Ek; simpl; [by rewrite Ek, IHd|].
    destruct (is_container v) eqn:Ec; [|done].
    destruct (is_blank (clean_entry v)) eqn:Eb; [done|]. simpl.
    rewrite Ek, Hv, Eb, IHd.
    by rewrite (clean_entry_not_blank (clean_entry v)) by by rewrite Hv.
Qed.

Lemma clean_each_fixed e : clean_each (clean_each e) = clean_each e.
Proof.
  unfold clean_each. rewrite map_map. apply map_ext. intros [k v]. simpl.
  by rewrite clean_entry_fixed.
Qed.

Lemma reduce_entries_fixed v : reduce_entries (reduce_entries v) = reduce_entries v.
Proof.
  induction v as [| | | |l IH|d IH] using value_ind'; try done.
  rewrite !reduce_entries_dict. f_equal. rewrite map_map.
  apply map_ext_Forall. eapply Forall_impl; [exact IH|].
  intros [k v] Hv. simpl in Hv. unfold reduce_item. simpl.
  destruct v as [| | | |l|e]; try done.
  destruct (String.eqb k "entries") eqn:Ek; simpl; rewrite Ek.
  - by rewrite clean_each_fixed.
  - cbn [reduce_entries] in Hv |- *. by rewrite Hv.
Qed.

(** X1.  Reduction is idempotent: reducing an entry that is already reduced,
    or a document whose entries are already reduced, changes nothing. *)
Theorem reduction_idempotent (v : value) :
  clean_entry (clean_entry v) = clean_entry v ∧
  reduce_entries (reduce_entries v) = reduce_entries v.
Proof. split; [apply clean_entry_fixed|apply reduce_entries_fixed]. Qed.

(** X2.  A companion has no companion of its own: whatever [reduce_file]
    writes for a document, it writes nothing for what it wrote, and more
    generally nothing for any reduced document. *)
Theorem reduce_file_of_reduced (d : value) :
  reduce_file (reduce_entries d) = None ∧
  ∀ r, reduce_file d = Some r → reduce_file r = None.
Proof.
  assert (reduce_file (reduce_entries d) = None) as Hred.
  { unfold reduce_file. repeat case_match; try done.
    match goal with H : has_reduction _ _ = true |- _ => rename H into Hr end.
    rewrite reduce_entries_fixed in Hr.
    unfold has_reduction in Hr. by rewrite value_eqb_refl in Hr. }
  split; [done|]. intros r Hr. unfold reduce_file in Hr.
  repeat case_match; try done. by injection Hr as <-.
Qed.

Lemma clean_entry_is_container v :
  is_container v = true → is_container (clean_entry v) = true.
Proof. by destruct v. Qed.

Lemma clean_entry_no_leftovers v : no_leftovers (clean_entry v) = true.
Proof.
  induction v as [| | | |l IH|d IH] using value_ind'; try done.
  - rewrite clean_entry_list. simpl. apply forallb_forall.
    intros x' Hx'%list_elem_of_In.
    pose proof Hx' as [Hnb _]%list_elem_of_filter.
    apply elem_of_clean_list in Hx' as (x & Hx & Hc & ->).
    rewrite Forall_forall in IH. by rewrite (IH x Hx), Hnb.
  - rewrite clean_entry_dict. simpl.
    induction IH as [|[k v] d Hv _ IHd]; [done|]. simpl in Hv. simpl.
    destruct (key_in k KEEP_KEYS) eqn:Ek; simpl; [by rewrite Ek|].
    destruct (is_container v) eqn:Ec; [|done].
    destruct (is_blank (clean_entry v)) eqn:Eb; [done|]. simpl.
    by rewrite Ek, Eb, Hv, clean_entry_is_container.
Qed.

(** X3.  [clean_entry] leaves no leftovers: in its result a key outside
    [KEEP_KEYS] holds a mapping or sequence that is not empty, a sequence
    holds no null, empty mapping or empty sequence, and this holds all the
    way down. *)
Theorem clean_entry_leaves_no_leftovers (v : value) :
  no_leftovers (clean_entry v) = true ∧
  (∀ (d : items) k x, clean_entry v = JDict d → (k, x) ∈ d →
     key_in k KEEP_KEYS = false →
     is_container x = true ∧ is_blank x = false) ∧
  (∀ (l : list value) x, clean_entry v = JList l → x ∈ l →
     is_blank x = false).
Proof.
  pose proof (clean_entry_no_leftovers v) as Hv.
  split; [done|]. split.
  - intros d k x Hd Hin Hk. rewrite Hd in Hv. simpl in Hv.
    pose proof (forallb_elem_of _ _ _ Hv Hin) as Hx. simpl in Hx.
    rewrite Hk in Hx. simpl in Hx.
    apply andb_true_iff in Hx as [[? ?%negb_true_iff]%andb_true_iff _]. done.
  - intros l x Hl Hin. rewrite Hl in Hv. simpl in Hv.
    pose proof (forallb_elem_of _ _ _ Hv Hin) as Hx.
    by apply andb_true_iff in Hx as [?%negb_true_iff _].
Qed.

Lemma clean_items_keeps k (d : items) :
  key_in k KEEP_KEYS = true → dict_get k (clean_items d) = dict_get k d.
Proof.
  intros Hk. induction d as [|[k' v] d IH]; [done|]. simpl.
  destruct (String.eqb_spec k k') as [<-|Hne].
  - rewrite Hk. simpl. by rewrite String.eqb_refl.
  - destruct (key_in k' KEEP_KEYS); simpl.
    + by apply String.eqb_neq in Hne as ->.
    + destruct (is_container v); [|done].
      destruct (is_blank (clean_entry v)); [done|]. simpl.
      by apply String.eqb_neq in Hne as ->.
Qed.

(** X4.  Every translatable field of every record reaches the companion as
    it is: when [entries] holds a mapping and one of its entries is a
    mapping, the reduced document holds under the same entry key a mapping
    in which every key of [KEEP_KEYS] has the value, or the absence, it has
    in the original record. *)
Theorem reduce_entries_keeps_fields (d e record : items) (ek : string) :
  dict_get "entries" d = Some (JDict e) →
  dict_get ek e = Some (JDict record) →
  ∃ d' e' record',
    reduce_entries (JDict d) = JDict d' ∧
    dict_get "entries" d' = Some (JDict e') ∧
    dict_get ek e' = Some (JDict record') ∧
    ∀ k, k ∈ KEEP_KEYS → dict_get k record' = dict_get k record.
Proof.
  intros He Hek.
  exists (map reduce_item d), (clean_each e), (clean_items record).
  split; [apply reduce_entries_dict|]. split.
  - rewrite dict_get_map by apply reduce_item_key. by rewrite He.
  - split; [by rewrite clean_each_get, Hek|].
    intros k Hk%key_in_spec. by apply clean_items_keeps.
Qed.

Lemma reduce_entries_keeps_fields_witness :
  ∃ d' e' record',
    reduce_entries
      (JDict [("entries",
               JDict [("a", JDict [("name", JStr "Sword"); ("value", JNum 10)])])])
    = JDict d' ∧
    dict_get "entries" d' = Some (JDict e') ∧
    dict_get "a" e' = Some (JDict record') ∧
    ∀ k, k ∈ KEEP_KEYS →
         dict_get k record'
         = dict_get k [("name", JStr "Sword"); ("value", JNum 10)].
Proof.
  apply (reduce_entries_keeps_fields
           [("entries",
             JDict [("a", JDict [("name", JStr "Sword"); ("value", JNum 10)])])]
           [("a", JDict [("name", JStr "Sword"); ("value", JNum 10)])]
           [("name", JStr "Sword"); ("value", JNum 10)] "a"); reflexivity.
Defined.

(** ** The second gate of reduction *)

Lemma has_translatable_key_spec (item : items) :
  has_translatable_key item = true ↔
  ∃ k, k ∈ KEEP_KEYS ∧ k ≠ "_id" ∧ dict_has k item = true.
Proof.
  unfold has_translatable_key. rewrite existsb_exists. split.
  - intros (k & Hk%list_elem_of_In & [Hhas Hid%negb_true_iff]%andb_true_iff).
    exists k. by apply String.eqb_neq in Hid.
  - intros (k & Hk & Hid & Hhas). exists k.
    split; [by apply list_elem_of_In|].
    apply String.eqb_neq in Hid. by rewrite Hhas, Hid.
Qed.

Lemma has_translatable_list_sound v :
  translatable_list_in v → has_translatable_list v = true.
Proof.
  induction 1 as [d k v Hin _ IH|l item k Hin Hk Hid Hhas|l item Hin _ IH];
    simpl; apply existsb_exists.
  - exists (k, v). split; [by apply list_elem_of_In|done].
  - exists (JDict item). split; [by apply list_elem_of_In|].
    apply orb_true_iff. left. apply has_translatable_key_spec. by exists k.
  - exists (JDict item). split; [by apply list_elem_of_In|].
    apply orb_true_iff. by right.
Qed.

Lemma has_translatable_list_complete v :
  has_translatable_list v = true → translatable_list_in v.
Proof.
  induction v as [| | | |l IH|d IH] using value_ind'; simpl; try done.
  - intros (x & Hin%list_elem_of_In & Hx)%existsb_exists.
    destruct x as [| | | | |item]; try done.
    apply orb_true_iff in Hx as [(k & ? & ? & ?)%has_translatable_key_spec|Hx].
    + by eapply tl_here.
    + rewrite Forall_forall in IH. eapply tl_element; [done|]. by apply IH.
  - intros ([k v] & Hin%list_elem_of_In & Hv)%existsb_exists.
    rewrite Forall_forall in IH. eapply tl_value; [done|]. by apply (IH (k, v)).
Qed.

(** X5.  [has_translatable_list] finds exactly the documents that hold, in
    a sequence reached through values of mappings and mapping elements of
    sequences, a mapping with a key of [KEEP_KEYS] other than [_id]. *)
Theorem has_translatable_list_spec (v : value) :
  has_translatable_list v = true ↔ translatable_list_in v.
Proof.
  split; [apply has_translatable_list_complete|apply has_translatable_list_sound].
Qed.

(** X6.  [reduce_file] writes a companion only for a document that holds a
    non-empty [entries] mapping and a translatable sequence and that its
    reduction differs from, keys in sorted order on both sides; the
    companion it writes is [reduce_entries] of the document. *)
Theorem reduce_file_writes (d r : value) :
  reduce_file d = Some r →
  contains_entries d ∧ translatable_list_in d ∧
  r = reduce_entries d ∧ sort_keys d ≠ sort_keys r.
Proof.
  unfold reduce_file.
  destruct (has_entries_nonempty d) eqn:E1; [|done].
  destruct (has_translatable_list d) eqn:E2; [|done]. simpl.
  destruct (has_reduction d (reduce_entries d)) eqn:E3; [|done].
  intros [= <-]. split; [by apply has_entries_nonempty_complete|].
  split; [by apply has_translatable_list_complete|]. split; [done|].
  intros Heq%has_reduction_false. congruence.
Qed.

Lemma reduce_file_writes_witness :
  contains_entries
    (JDict [("entries",
             JDict [("a", JDict [("name", JStr "Sword"); ("value", JNum 10);
                                 ("items", JList [JDict [("name", JStr "Hilt")]])])])]) ∧
  translatable_list_in
    (JDict [("entries",
             JDict [("a", JDict [("name", JStr "Sword"); ("value", JNum 10);
                                 ("items", JList [JDict [("name", JStr "Hilt")]])])])]) ∧
  JDict [("entries",
          JDict [("a", JDict [("name", JStr "Sword");
                              ("items", JList [JDict [("name", JStr "Hilt")]])])])]
  = reduce_entries
      (JDict [("entries",
               JDict [("a", JDict [("name", JStr "Sword"); ("value", JNum 10);
                                   ("items", JList [JDict [("name", JStr "Hilt")]])])])]) ∧
  sort_keys
    (JDict [("entries",
             JDict [("a", JDict [("name", JStr "Sword"); ("value", JNum 10);
                                 ("items", JList [JDict [("name", JStr "Hilt")]])])])])
  ≠ sort_keys
      (JDict [("entries",
               JDict [("a", JDict [("name", JStr "Sword");
                                   ("items", JList [JDict [("name", JStr "Hilt")]])])])]).
Proof. apply reduce_file_writes. reflexivity. Defined.

(** ** The comparison of [has_reduction] ignores the order of keys *)

Lemma key_le_trans : Transitive key_le.
Proof.
  intros a b c Hab Hbc. unfold key_le in *.
  apply Is_true_true. apply Is_true_true in Hab, Hbc.
  by apply (transitivity (R := String.le) (y := b.1)).
Qed.

Lemma distinct_keys_value (l : items) k v1 v2 :
  NoDup (keys l) → (k, v1) ∈ l → (k, v2) ∈ l → v1 = v2.
Proof.
  unfold keys. induction l as [|[k' v'] l IH]; [by intros _ ?%elem_of_nil|].
  rewrite fmap_cons. intros [Hk' Hnd]%NoDup_cons H1 H2. simpl in Hk'.
  apply elem_of_cons in H1 as [H1|H1]; apply elem_of_cons in H2 as [H2|H2].
  - congruence.
  - injection H1 as -> ->. destruct Hk'.
    by apply (list_elem_of_fmap_2 fst l (k', v2)).
  - injection H2 as -> ->. destruct Hk'.
    by apply (list_elem_of_fmap_2 fst l (k', v1)).
  - by apply IH.
Qed.

Lemma sorted_items_unique (l1 l2 : items) :
  l1 ≡ₚ l2 → NoDup (keys l1) → sorted_items l1 = sorted_items l2.
Proof.
  intros Hperm Hnd.
  apply (Sorted_unique_strong key_le (Transitive0 := key_le_trans)).
  - intros [k1 v1] [k2 v2] H1 H2 Hle1 Hle2. unfold key_le in *. simpl in *.
    assert (k1 = k2) as -> by by apply String.leb_antisym.
    f_equal. apply (distinct_keys_value l1 k2); [done| |].
    + by rewrite sorted_items_perm in H1.
    + by rewrite sorted_items_perm, <-Hperm in H2.
  - apply sorted_items_sorted.
  - apply sorted_items_sorted.
  - by rewrite !sorted_items_perm.
Qed.

Lemma reordered_sort_keys v v' : reordered v v' → sort_keys v = sort_keys v'.
Proof.
  revert v'. induction v as [| | | |l IH|d IH] using value_ind'; intros v' Hr;
    try (by inversion Hr; subst).
  - inversion Hr as [|? l' Hl|]; subst; [done|]. simpl. f_equal.
    clear Hr. induction Hl as [|x y l l' Hxy _ IHl]; [done|].
    apply Forall_cons in IH as [Hx IHrest]. simpl.
    f_equal; [by apply Hx|by apply IHl].
  - inversion Hr as [| |? d1 d' Hd Hperm Hnd]; subst; [done|]. simpl. f_equal.
    assert (map (λ kv, (kv.1, sort_keys kv.2)) d
            = map (λ kv, (kv.1, sort_keys kv.2)) d1) as Hmap.
    { clear Hr Hperm Hnd. induction Hd as [|x y d d1 [Hk Hv] _ IHd]; [done|].
      apply Forall_cons in IH as [Hx IHrest]. simpl.
      f_equal; [|by apply IHd]. by rewrite Hk, (Hx _ Hv). }
    rewrite Hmap. apply sorted_items_unique.
    + by apply Permutation_map.
    + rewrite <-Hmap, keys_map; done.
Qed.

(** X7.  [has_reduction] does not see the order of keys: two documents that
    are the same tree up to the order of the (distinct) keys of their
    mappings, at any depth, are found equal. *)
Theorem has_reduction_ignores_order (v v' : value) :
  reordered v v' → has_reduction v v' = false.
Proof. intros Hr. by apply has_reduction_false, reordered_sort_keys. Qed.

Lemma has_reduction_ignores_order_witness :
  has_reduction (JDict [("b", JNum 1); ("a", JNum 2)])
                (JDict [("a", JNum 2); ("b", JNum 1)]) = false.
Proof.
  apply has_reduction_ignores_order.
  apply (reordered_dict _ [("b", JNum 1); ("a", JNum 2)]).
  - repeat constructor.
  - apply Permutation_swap.
  - apply (bool_decide_unpack _). by vm_compute.
Defined.

(** ** Copying the string fields *)

Lemma dict_get_set_eq k v (d : items) : dict_get k (dict_set d k v) = Some v.
Proof.
  induction d as [|[k0 v0] d IH]; simpl; [by rewrite String.eqb_refl|].
  destruct (String.eqb_spec k k0) as [->|Hne]; simpl.
  - by rewrite String.eqb_refl.
  - by apply String.eqb_neq in Hne as ->.
Qed.

Lemma dict_set_same k v (d : items) :
  dict_get k d = Some v → dict_set d k v = d.
Proof.
  induction d as [|[k0 v0] d IH]; simpl; [done|].
  destruct (String.eqb_spec k k0) as [->|Hne]; [by intros [= ->]|].
  intros Hk. by rewrite IH.
Qed.

Lemma dict_get_distinct (d : items) k v :
  NoDup (keys d) → (k, v) ∈ d → dict_get k d = Some v.
Proof.
  intros Hnd Hin. destruct (dict_get k d) as [v'|] eqn:E.
  - apply dict_get_elem_of in E. f_equal. by eapply distinct_keys_value.
  - apply dict_get_None in E. destruct E.
    by apply (list_elem_of_fmap_2 fst d (k, v)).
Qed.

Lemma copy_items_get (d s : items) k :
  NoDup (keys s) →
  dict_get k (copy_items d s) =
  match dict_get k s with
  | Some v => if copied (k, v) then Some v else dict_get k d
  | None => dict_get k d
  end.
Proof.
  revert d. induction s as [|[k' v'] s IH]; intros d Hnd; [done|].
  unfold keys in Hnd. rewrite fmap_cons in Hnd.
  apply NoDup_cons in Hnd as [Hk' Hnd]. simpl in Hk'.
  rewrite copy_items_cons, IH by done. cbn [fst snd dict_get].
  destruct (String.eqb_spec k k') as [->|Hne].
  - apply dict_get_None in Hk'. rewrite Hk'.
    destruct (copied (k', v')); [apply dict_get_set_eq|done].
  - assert (dict_get k (if copied (k', v') then dict_set d k' v' else d)
            = dict_get k d) as ->; [|done].
    destruct (copied (k', v')); [by apply dict_get_set_ne|done].
Qed.

Lemma copy_items_fixed (d s : items) :
  NoDup (keys s) → copy_items (copy_items d s) s = copy_items d s.
Proof.
  intros Hnd. unfold copy_items at 1.
  apply (fold_left_invariant_in (λ acc, acc = copy_items d s)); [done|].
  intros acc [k v] Hin ->. cbn [fst snd].
  destruct (String.eqb k "_id") eqn:Eid; [done|].
  destruct (is_str v && key_in k TRANSLATABLE_KEYS) eqn:Ec; [|done].
  apply dict_set_same. rewrite copy_items_get by done.
  rewrite (dict_get_distinct s k v) by done.
  unfold copied. cbn [fst snd]. by rewrite Eid, Ec.
Qed.

(** X8.  After [copy_string_fields], a key holds the string the source holds
    under it when the key is translatable and not [_id], and the value it
    had in the destination, or none, in every other case.  Copying a second
    time from the same source changes nothing. *)
Theorem copy_string_fields_lookup (d s : items) :
  NoDup (keys s) →
  ∃ d', copy_string_fields (JDict d) (JDict s) = JDict d' ∧
    (∀ k, dict_get k d' =
          match dict_get k s with
          | Some (JStr x) =>
              if bool_decide (k ≠ "_id" ∧ k ∈ TRANSLATABLE_KEYS)
              then Some (JStr x) else dict_get k d
          | _ => dict_get k d
          end) ∧
    copy_string_fields (JDict d') (JDict s) = JDict d'.
Proof.
  intros Hnd. exists (copy_items d s). split; [done|]. split.
  - intros k. rewrite copy_items_get by done.
    destruct (dict_get k s) as [v|]; [|done]. unfold copied. cbn [fst snd].
    destruct v as [| | |x| |]; simpl; try by rewrite andb_false_r.
    destruct (String.eqb_spec k "_id") as [->|Hid]; cbn [negb andb].
    + rewrite bool_decide_eq_false_2; [done|]. by intros [? _].
    + destruct (key_in k TRANSLATABLE_KEYS) eqn:Ek.
      * apply key_in_spec in Ek. by rewrite bool_decide_eq_true_2.
      * apply key_in_false in Ek. rewrite bool_decide_eq_false_2; [done|].
        by intros [_ ?].
  - simpl. by rewrite copy_items_fixed.
Qed.

Lemma copy_string_fields_lookup_witness :
  ∃ d', copy_string_fields
          (JDict [("_id", JStr "i1"); ("label", JStr "Sword")])
          (JDict [("_id", JStr "i2"); ("label", JStr "Espada"); ("value", JNum 3)])
        = JDict d' ∧
    (∀ k, dict_get k d' =
          match dict_get k [("_id", JStr "i2"); ("label", JStr "Espada");
                            ("value", JNum 3)] with
          | Some (JStr x) =>
              if bool_decide (k ≠ "_id" ∧ k ∈ TRANSLATABLE_KEYS)
              then Some (JStr x)
              else dict_get k [("_id", JStr "i1"); ("label", JStr "Sword")]
          | _ => dict_get k [("_id", JStr "i1"); ("label", JStr "Sword")]
          end) ∧
    copy_string_fields (JDict d')
      (JDict [("_id", JStr "i2"); ("label", JStr "Espada"); ("value", JNum 3)])
    = JDict d'.
Proof.
  apply (copy_string_fields_lookup
           [("_id", JStr "i1"); ("label", JStr "Sword")]
           [("_id", JStr "i2"); ("label", JStr "Espada"); ("value", JNum 3)]).
  apply (bool_decide_unpack _). by vm_compute.
Defined.

(** ** What a merge leaves alone *)

Lemma merged_keeps_other_scalar (e : items) k v v' :
  key_in k TRANSLATABLE_KEYS = false →
  dict_get k e = Some v → is_container v = false →
  merged (JDict e) v' →
  ∃ e', v' = JDict e' ∧ dict_get k e' = Some v.
Proof.
  intros Hk He Hv Hm. inversion Hm as [| |? d' extra Hd Hextra]; subst; [done|].
  exists (d' ++ extra)%list. split; [done|].
  destruct (merged_item_lookup _ _ extra _ _ Hd He) as (v' & Hv' & [Hm'|Hc]).
  - by rewrite Hv', (merged_leaf_inv _ _ Hv Hm').
  - destruct Hc as (_ & Hc & _). congruence.
Qed.

(** X9.  A merge leaves every scalar that stands under a key outside
    [TRANSLATABLE_KEYS] as it is: in the destination mapping itself,
    whatever the source, and in a mapping element of a sequence after the
    sequence was reconciled with any source sequence. *)
Theorem merge_keeps_other_scalars (e : items) (k : string) (v : value) :
  k ∉ TRANSLATABLE_KEYS →
  dict_get k e = Some v → is_container v = false →
  (∀ src, ∃ e', merge_translations (JDict e) src = JDict e' ∧
                dict_get k e' = Some v) ∧
  (∀ (dl sl : list value) (i : nat),
     dl !! i = Some (JDict e) →
     ∃ e', merge_lists dl sl !! i = Some (JDict e') ∧
           dict_get k e' = Some v).
Proof.
  intros Hk%key_in_false He Hv. split.
  - intros src. apply (merged_keeps_other_scalar e k v); [done..|].
    apply merge_translations_merged.
  - intros dl sl i Hi.
    destruct (Forall2_lookup_l _ _ _ _ _ (merge_lists_merged dl sl) Hi)
      as (v' & Hv' & Hm).
    destruct (merged_keeps_other_scalar e k v v' Hk He Hv Hm) as (e' & -> & He').
    by exists e'.
Qed.

Lemma merge_keeps_other_scalars_witness :
  (∀ src, ∃ e', merge_translations
                  (JDict [("label", JStr "Sword"); ("value", JNum 10)]) src
                = JDict e' ∧
                dict_get "value" e' = Some (JNum 10)) ∧
  (∀ (dl sl : list value) (i : nat),
     dl !! i = Some (JDict [("label", JStr "Sword"); ("value", JNum 10)]) →
     ∃ e', merge_lists dl sl !! i = Some (JDict e') ∧
           dict_get "value" e' = Some (JNum 10)).
Proof.
  apply (merge_keeps_other_scalars
           [("label", JStr "Sword"); ("value", JNum 10)] "value" (JNum 10));
    [|reflexivity..].
  apply (bool_decide_unpack _). by vm_compute.
Defined.

(** ** Elements that [merge_lists] does not touch *)

Lemma merge_lists_trace_within dl sl :
  log_within (λ di, is_dict_at dl di = true) (λ si, is_dict_at sl si = true)
             (merge_lists_trace dl sl).
Proof.
  intros [di si]. rewrite merge_lists_trace_log, elem_of_app. intros [Hp|Hp].
  - by apply (merge_lists_keyed_within dl sl (di, si)).
  - unfold fallback_pairs in Hp. split; cbn [fst snd].
    + by apply elem_of_zip_l, elem_of_dict_indices in Hp.
    + apply elem_of_zip_r, list_elem_of_filter in Hp as [_ Hp].
      by apply elem_of_dict_indices.
Qed.

Lemma replay_cons sl p log (dl : list value) :
  replay sl (p :: log) dl =
  replay sl log (match dl !! p.1 with
                 | Some d => <[p.1 := merge_at_src sl p.2 d]> dl
                 | None => dl
                 end).
Proof. done. Qed.

Lemma replay_lookup_other sl log (dl : list value) i :
  (∀ p, p ∈ log → p.1 ≠ i) → replay sl log dl !! i = dl !! i.
Proof.
  revert dl. induction log as [|p log IH]; intros dl Hlog; [done|].
  rewrite replay_cons, IH.
  - destruct (dl !! p.1); [|done]. apply list_lookup_insert_ne.
    apply Hlog. left.
  - intros q Hq. apply Hlog. by right.
Qed.

Lemma replay_length sl log (dl : list value) :
  length (replay sl log dl) = length dl.
Proof.
  revert dl. induction log as [|p log IH]; intros dl; [done|].
  rewrite replay_cons, IH. destruct (dl !! p.1); [|done]. apply length_insert.
Qed.

Lemma merge_lists_replay dl sl :
  merge_lists dl sl = replay sl (ms_log (merge_lists_trace dl sl)) dl.
Proof. apply merge_lists_trace_replayed. Qed.

Lemma merge_lists_keeps_other dl sl i v :
  dl !! i = Some v → is_dict v = false → merge_lists dl sl !! i = Some v.
Proof.
  intros Hi Hv. rewrite merge_lists_replay, replay_lookup_other; [done|].
  intros p Hp <-. apply merge_lists_trace_within in Hp as [Hp _].
  unfold is_dict_at in Hp. rewrite Hi in Hp. congruence.
Qed.

Lemma is_dict_at_elem_of (l : list value) i :
  is_dict_at l i = true → ∃ x, x ∈ l ∧ is_dict x = true.
Proof.
  unfold is_dict_at. destruct (l !! i) as [x|] eqn:E; [|done].
  intros Hx. exists x. split; [by eapply list_elem_of_lookup_2|done].
Qed.

(** X10.  [merge_lists] touches mappings only, and only when both lists
    have some: an element of the destination that is not a mapping is left
    as it is, and the whole destination is left as it is when the source
    list, or the destination list, holds no mapping (an empty list
    included). *)
Theorem merge_lists_only_touches_mappings (dl sl : list value) :
  (∀ i v, dl !! i = Some v → is_dict v = false →
          merge_lists dl sl !! i = Some v) ∧
  ((∀ x, x ∈ sl → is_dict x = false) → merge_lists dl sl = dl) ∧
  ((∀ x, x ∈ dl → is_dict x = false) → merge_lists dl sl = dl).
Proof.
  split; [intros i v; apply merge_lists_keeps_other|]. split.
  - intros Hsl. rewrite merge_lists_replay.
    destruct (ms_log (merge_lists_trace dl sl)) as [|p log] eqn:E; [done|].
    assert (p ∈ ms_log (merge_lists_trace dl sl)) as Hp by (rewrite E; left).
    apply merge_lists_trace_within in Hp as [_ Hp].
    apply is_dict_at_elem_of in Hp as (x & Hx & Hd).
    rewrite (Hsl x Hx) in Hd. done.
  - intros Hdl. apply list_eq. intros i.
    destruct (dl !! i) as [v|] eqn:E.
    + apply merge_lists_keeps_other; [done|].
      apply Hdl. by eapply list_elem_of_lookup_2.
    + apply lookup_ge_None. apply lookup_ge_None in E.
      by rewrite merge_lists_replay, replay_length.
Qed.

(** ** A source with nothing to merge *)

Lemma copy_items_nothing (d s : items) :
  (∀ k v, (k, v) ∈ s → ¬ copyable k v) → copy_items d s = d.
Proof.
  intros Hs. unfold copy_items.
  apply (fold_left_invariant_in (λ acc, acc = d)); [done|].
  intros acc [k v] Hin ->. cbn [fst snd].
  destruct (copied (k, v)) eqn:Ec.
  - apply copied_spec in Ec. by destruct (Hs k v Hin).
  - unfold copied in Ec. cbn [fst snd] in Ec.
    destruct (String.eqb k "_id"); [done|]. simpl in Ec. by rewrite Ec.
Qed.

Lemma same_key_with_scalars rec (s : items) k v :
  (∀ k' v', (k', v') ∈ s → is_container v' = false) →
  same_key_with rec s k v = v.
Proof.
  induction s as [|[k' sv] s IH]; intros Hs; [done|]. simpl.
  assert (is_container sv = false) as Hsv by (apply (Hs k'); left).
  destruct (String.eqb k k').
  - by destruct sv, v.
  - apply IH. intros k0 v0 Hin. apply (Hs k0). by right.
Qed.

Lemma cross_lists_with_scalars rec (s : items) dl :
  (∀ k' v', (k', v') ∈ s → is_container v' = false) →
  cross_lists_with rec s dl = dl.
Proof.
  induction s as [|[k' sv] s IH]; intros Hs; [done|]. simpl.
  assert (is_container sv = false) as Hsv by (apply (Hs k'); left).
  assert (cross_lists_with rec s dl = dl) as Hrest.
  { apply IH. intros k0 v0 Hin. apply (Hs k0). by right. }
  by destruct sv.
Qed.

(** X11.  A source mapping whose values are all scalars, none of them a
    string under a translatable key other than [_id], changes nothing in
    the destination; the empty mapping is such a source. *)
Theorem merge_translations_nothing (d s : items) :
  carries_nothing s →
  merge_translations (JDict d) (JDict s) = JDict d.
Proof.
  intros Hs. rewrite merge_translations_dict. f_equal.
  unfold merge_items_with. rewrite copy_items_nothing by (intros; by apply Hs).
  rewrite map_map. rewrite <-(map_id d) at 2. apply map_ext.
  intros [k v]. cbn [fst snd].
  rewrite same_key_with_scalars by (intros; by eapply Hs).
  destruct v; try done.
  by rewrite cross_lists_with_scalars by (intros; by eapply Hs).
Qed.

Lemma merge_translations_nothing_witness :
  merge_translations
    (JDict [("label", JStr "Sword"); ("items", JList [JDict []])])
    (JDict [("_id", JStr "i9"); ("value", JNum 3); ("label", JNull)])
  = JDict [("label", JStr "Sword"); ("items", JList [JDict []])].
Proof.
  apply merge_translations_nothing.
  intros k v Hin. repeat (apply elem_of_cons in Hin as [[= -> ->]|Hin]).
  - split; [done|]. by intros [? _].
  - split; [done|]. by intros (_ & ? & _).
  - split; [done|]. by intros (_ & _ & ?).
  - by apply elem_of_nil in Hin.
Defined.

(** ** Sources without [_id] and [name]: the positional pairing *)

Lemma index_by_nothing k (sl : list value) key :
  (∀ si, field_at k sl si = None) →
  index_by k sl (dict_indices sl) !! key = None.
Proof.
  intros Hsl. destruct (index_by k sl (dict_indices sl) !! key) as [si|] eqn:E;
    [|done].
  apply index_by_last in E as [E _]. by rewrite Hsl in E.
Qed.

Lemma pass_key_noop merge_at k (table : gmap string nat) st di :
  (∀ key, table !! key = None) → pass_key merge_at k table st di = st.
Proof.
  intros Htable. unfold pass_key. destruct (ms_dst st !! di); [|done].
  destruct (str_field k v); [|done]. by rewrite Htable.
Qed.

Lemma fold_left_noop {A B} (f : A → B → A) (l : list B) a :
  (∀ a b, f a b = a) → fold_left f l a = a.
Proof. intros Hf. induction l as [|b l IH]; [done|]. simpl. by rewrite Hf. Qed.

Lemma merge_lists_keyed_nothing dl sl :
  (∀ si, field_at "_id" sl si = None ∧ field_at "name" sl si = None) →
  merge_lists_keyed dl sl = MergeState dl ∅ [].
Proof.
  intros Hsl. unfold merge_lists_keyed, pass_name, pass_id.
  rewrite fold_left_noop.
  - rewrite fold_left_noop; [done|]. intros st di. apply pass_key_noop.
    intros key. apply index_by_nothing. intros si. apply Hsl.
  - intros st di. apply pass_key_noop.
    intros key. apply index_by_nothing. intros si. apply Hsl.
Qed.

Lemma zip_fst_sublist {A B} (l : list A) (k : list B) : (zip l k).*1 `sublist_of` l.
Proof.
  revert k. induction l as [|x l IH]; intros [|y k]; simpl;
    try apply sublist_nil_l.
  apply sublist_skip, IH.
Qed.

Lemma elem_of_zip_lookup {A B} (l : list A) (k : list B) x y :
  (x, y) ∈ zip l k ↔ ∃ n, l !! n = Some x ∧ k !! n = Some y.
Proof.
  rewrite list_elem_of_lookup. split.
  - intros (n & Hn). exists n.
    apply lookup_zip_with_Some in Hn as (x' & y' & [= -> ->] & ? & ?). done.
  - intros (n & Hx & Hy). exists n. apply lookup_zip_with_Some. by exists x, y.
Qed.

(** With destination indices that are all different, an element paired
    once is merged once. *)
Lemma replay_lookup_pair sl log (dl : list value) di si :
  NoDup log.*1 → (di, si) ∈ log →
  replay sl log dl !! di = merge_at_src sl si <$> dl !! di.
Proof.
  revert dl. induction log as [|p log IH]; intros dl Hnd Hin;
    [by apply elem_of_nil in Hin|].
  rewrite fmap_cons in Hnd. apply NoDup_cons in Hnd as [Hp Hnd].
  rewrite replay_cons. apply elem_of_cons in Hin as [<-|Hin].
  - rewrite replay_lookup_other.
    + cbn [fst snd]. destruct (dl !! di) as [d|] eqn:E; [|by rewrite E].
      rewrite list_lookup_insert_eq; [done|]. by eapply lookup_lt_Some.
    + intros q Hq Hqd. apply Hp. cbn [fst]. rewrite <-Hqd.
      by apply list_elem_of_fmap_2.
  - rewrite IH by done.
    assert (p.1 ≠ di) as Hne.
    { intros Heq. apply Hp. rewrite Heq.
      by apply (list_elem_of_fmap_2 fst log (di, si)). }
    destruct (dl !! p.1); [|done]. by rewrite list_lookup_insert_ne.
Qed.

(** X12.  When no source mapping has a string [_id] or a string [name],
    reconciliation is positional: the n-th mapping of the destination is
    merged, once, from the n-th mapping of the source, and the destination
    mappings beyond the last source mapping are left as they are. *)
Theorem merge_lists_positional (dl sl : list value) :
  (∀ si, field_at "_id" sl si = None ∧ field_at "name" sl si = None) →
  ms_log (merge_lists_trace dl sl) = zip (dict_indices dl) (dict_indices sl) ∧
  (∀ n di si, dict_indices dl !! n = Some di →
              dict_indices sl !! n = Some si →
              merge_lists dl sl !! di = merge_at_src sl si <$> dl !! di) ∧
  (∀ n di, dict_indices dl !! n = Some di →
           length (dict_indices sl) ≤ n →
           merge_lists dl sl !! di = dl !! di).
Proof.
  intros Hsl.
  assert (ms_log (merge_lists_trace dl sl)
          = zip (dict_indices dl) (dict_indices sl)) as Hlog.
  { rewrite merge_lists_trace_log. unfold fallback_pairs.
    rewrite (merge_lists_keyed_nothing _ _ Hsl). simpl.
    by rewrite filter_all by (intros; apply not_elem_of_empty). }
  split; [done|]. rewrite merge_lists_replay, Hlog. split.
  - intros n di si Hdi Hsi. apply replay_lookup_pair.
    + eapply sublist_NoDup; [apply dict_indices_NoDup|apply zip_fst_sublist].
    + apply elem_of_zip_lookup. by exists n.
  - intros n di Hdi Hn. apply replay_lookup_other.
    intros [di' si'] (m & Hm & Hsi)%elem_of_zip_lookup Heq. cbn [fst] in Heq.
    subst di'. apply lookup_lt_Some in Hsi.
    pose proof (NoDup_lookup _ _ _ _ (dict_indices_NoDup dl) Hm Hdi). lia.
Qed.

Lemma merge_lists_positional_witness :
  let dl := [JDict [("label", JStr "A")]; JNum 0; JDict [("label", JStr "B")]] in
  let sl := [JDict [("label", JStr "A2")]] in
  ms_log (merge_lists_trace dl sl) = zip (dict_indices dl) (dict_indices sl) ∧
  (∀ n di si, dict_indices dl !! n = Some di →
              dict_indices sl !! n = Some si →
              merge_lists dl sl !! di = merge_at_src sl si <$> dl !! di) ∧
  (∀ n di, dict_indices dl !! n = Some di →
           length (dict_indices sl) ≤ n →
           merge_lists dl sl !! di = dl !! di).
Proof.
  apply (merge_lists_positional
           [JDict [("label", JStr "A")]; JNum 0; JDict [("label", JStr "B")]]
           [JDict [("label", JStr "A2")]]).
  intros [|[|si]]; by vm_compute.
Defined.

(** ** Merging one file *)

Lemma copy_items_get_entries (o t : items) :
  dict_get "entries" (copy_items o t) = dict_get "entries" o.
Proof.
  apply copy_items_get_other. intros v _ (_ & Hk & _). by vm_compute in Hk.
Qed.


Lemma merge_entries_key te kv :
  (if is_dict kv.2 then
     match find_translation te kv.1 kv.2 with
     | Some t_val => (kv.1, merge_translations kv.2 t_val)
     | None => kv
     end
   else kv).1 = kv.1.
Proof. destruct (is_dict kv.2); [|done]. by destruct (find_translation _ _ _). Qed.

Lemma merge_entries_get (oe te : items) k :
  dict_get k (merge_entries oe te) =
  (λ v, if is_dict v then
          match find_translation te k v with
          | Some t_val => merge_translations v t_val
          | None => v
          end
        else v) <$> dict_get k oe.
Proof.
  unfold merge_entries. rewrite dict_get_map by apply merge_entries_key.
  destruct (dict_get k oe) as [v|]; [|done]. simpl.
  destruct (is_dict v); [|done]. by destruct (find_translation te k v).
Qed.

(** X14.  What [merge_file] writes has the keys of the original in their
    places (with the copied top-level strings after them), the same values
    under the keys other than [entries] as after [copy_string_fields], and
    under [entries] a mapping with exactly the entry keys of the original,
    in order.  Each entry is [merged] from the original one; an entry that
    is not a mapping, or for which no translation is found, is left as it
    is. *)
Theorem merge_file_keeps_entries (o t : items) (r : value) :
  merge_file (JDict o) (JDict t) = Some r →
  ∃ r' oe te oe' : items,
    r = JDict r' ∧
    dict_get "entries" o = Some (JDict oe) ∧
    dict_get "entries" t = Some (JDict te) ∧
    dict_get "entries" r' = Some (JDict oe') ∧
    keys r' = keys (copy_items o t) ∧
    (∀ k, k ≠ "entries" → dict_get k r' = dict_get k (copy_items o t)) ∧
    keys oe' = keys oe ∧
    ∀ k v, dict_get k oe = Some v →
      ∃ v', dict_get k oe' = Some v' ∧ merged v v' ∧
            (is_dict v = false ∨ find_translation te k v = None → v' = v).
Proof.
  unfold merge_file. pose proof (copy_items_get_entries o t) as Hent.
  destruct (dict_get "entries" (copy_items o t)) as [[| | | | |oe]|] eqn:Ho;
    try done.
  destruct (dict_get "entries" t) as [[| | | | |te]|] eqn:Ht; try done.
  intros [= <-].
  exists (dict_set (copy_items o t) "entries" (JDict (merge_entries oe te))),
         oe, te, (merge_entries oe te).
  split; [done|]. split; [done|]. split; [done|].
  split; [apply dict_get_set_eq|]. split.
  { rewrite keys_dict_set. unfold dict_has. by rewrite Ho. }
  split; [intros k Hk; by apply dict_get_set_ne|]. split.
  { unfold merge_entries. apply keys_map. apply merge_entries_key. }
  intros k v Hk. rewrite merge_entries_get, Hk. simpl.
  destruct (is_dict v) eqn:Ev.
  - destruct (find_translation te k v) as [tv|] eqn:Ef.
    + eexists. split; [done|]. split; [apply merge_translations_merged|].
      by intros [?|?].
    + exists v. split; [done|]. split; [apply merged_refl|done].
  - exists v. split; [done|]. split; [apply merged_refl|done].
Qed.

Lemma merge_file_keeps_entries_witness :
  ∃ r' oe te oe' : items,
    RoundTrip.merged_back = JDict r' ∧
    dict_get "entries"
      [("entries",
        JDict [("a", JDict (RoundTrip.sword "Sword" ++ [("value", JNum 10)]))])]
    = Some (JDict oe) ∧
    dict_get "entries"
      [("entries",
        JDict [("a", JDict (dict_set (RoundTrip.sword "Sword") "label"
                                     (JStr "Espada")))])]
    = Some (JDict te) ∧
    dict_get "entries" r' = Some (JDict oe') ∧
    keys r' =
      keys (copy_items
        [("entries",
          JDict [("a", JDict (RoundTrip.sword "Sword" ++ [("value", JNum 10)]))])]
        [("entries",
          JDict [("a", JDict (dict_set (RoundTrip.sword "Sword") "label"
                                       (JStr "Espada")))])]) ∧
    (∀ k, k ≠ "entries" →
       dict_get k r' =
       dict_get k (copy_items
         [("entries",
           JDict [("a", JDict (RoundTrip.sword "Sword" ++ [("value", JNum 10)]))])]
         [("entries",
           JDict [("a", JDict (dict_set (RoundTrip.sword "Sword") "label"
                                        (JStr "Espada")))])])) ∧
    keys oe' = keys oe ∧
    ∀ k v, dict_get k oe = Some v →
      ∃ v', dict_get k oe' = Some v' ∧ merged v v' ∧
            (is_dict v = false ∨ find_translation te k v = None → v' = v).
Proof.
  apply (merge_file_keeps_entries
    [("entries",
      JDict [("a", JDict (RoundTrip.sword "Sword" ++ [("value", JNum 10)]))])]
    [("entries",
      JDict [("a", JDict (dict_set (RoundTrip.sword "Sword") "label"
                                   (JStr "Espada")))])]
    RoundTrip.merged_back).
  by vm_compute.
Defined.

(** ** Finding the translation of an entry *)

Lemma dict_get_filter (P : string * value → Prop) `{∀ kv, Decision (P kv)}
      (d : items) k v :
  dict_get k d = Some v → P (k, v) → dict_get k (filter P d) = Some v.
Proof.
  intros Hk HP. induction d as [|[k' v'] d IH]; [done|].
  simpl in Hk. rewrite filter_cons.
  destruct (String.eqb_spec k k') as [->|Hne].
  - injection Hk as ->. rewrite decide_True by done. simpl.
    by rewrite String.eqb_refl.
  - case_decide; [|by apply IH]. simpl.
    apply String.eqb_neq in Hne as ->. by apply IH.
Qed.

Lemma dict_get_filter_Some (P : string * value → Prop)
      `{∀ kv, Decision (P kv)} (d : items) k v :
  dict_get k (filter P d) = Some v → (k, v) ∈ d ∧ P (k, v).
Proof.
  intros Hk%dict_get_elem_of%list_elem_of_filter. tauto.
Qed.

(** The table after the assignments for the entries of [te], started from
    [m]: a name is bound to the last entry of [te] that has it as its own
    [name], or is as in [m]. *)
Lemma t_by_inner_name_fold (te : items) (m : gmap string value) nm tv :
  fold_left (λ m kv, match str_field "name" kv.2 with
                     | Some nm => <[nm:=kv.2]> m
                     | None => m
                     end) te m !! nm = Some tv ↔
  (∃ pre tk post, te = (pre ++ (tk, tv) :: post)%list ∧
                  inner_name_is nm (tk, tv) ∧
                  ∀ kv, kv ∈ post → ¬ inner_name_is nm kv) ∨
  (m !! nm = Some tv ∧ ∀ kv, kv ∈ te → ¬ inner_name_is nm kv).
Proof.
  unfold inner_name_is. revert m. induction te as [|[k v] te IH]; intros m.
  - simpl. split.
    + intros Hm. right. split; [done|]. intros kv Hkv. by apply elem_of_nil in Hkv.
    + intros [(pre & tk & post & Hnil & _)|[Hm _]]; [|done]. by destruct pre.
  - cbn [fold_left snd]. rewrite IH. split.
    + intros [(pre & tk & post & -> & Hi & Hpost)|[Hm Hte]].
      * left. by exists ((k, v) :: pre), tk, post.
      * destruct (str_field "name" v) as [s|] eqn:Ev.
        -- destruct (decide (s = nm)) as [->|Hne].
           ++ rewrite lookup_insert_eq in Hm. injection Hm as ->.
              left. by exists [], k, te.
           ++ rewrite lookup_insert_ne in Hm by done.
              right. split; [done|].
              intros kv [->|Hkv]%elem_of_cons; [|by apply Hte].
              simpl. congruence.
        -- right. split; [done|].
           intros kv [->|Hkv]%elem_of_cons; [|by apply Hte].
           simpl. congruence.
    + intros [(pre & tk & post & Heq & Hi & Hpost)|[Hm Hte]].
      * destruct pre as [|b pre]; simplify_eq/=.
        -- right. rewrite Hi, lookup_insert_eq. done.
        -- left. by exists pre, tk, post.
      * right. split; [|intros kv Hkv; apply Hte; by right].
        destruct (str_field "name" v) as [s|] eqn:Ev; [|done].
        rewrite lookup_insert_ne; [done|]. intros ->.
        apply (Hte (k, v)); [left|done].
Qed.

(** X15.  [t_by_inner_name] binds a name to the last entry of the
    translated document that is a mapping with that string as its own
    [name]: of several entries with the same inner name the last one is
    found. *)
Theorem t_by_inner_name_last (te : items) (nm : string) (tv : value) :
  t_by_inner_name te !! nm = Some tv ↔
  ∃ pre tk post,
    te = (pre ++ (tk, tv) :: post)%list ∧
    str_field "name" tv = Some nm ∧
    ∀ kv, kv ∈ post → str_field "name" kv.2 ≠ Some nm.
Proof.
  unfold t_by_inner_name. rewrite t_by_inner_name_fold, lookup_empty.
  unfold inner_name_is. simpl. split.
  - intros [H|[? _]]; [done|done].
  - intros H. by left.
Qed.

Lemma str_field_is_dict k v s : str_field k v = Some s → is_dict v = true.
Proof. by destruct v. Qed.

Lemma t_by_inner_name_elem_of (te : items) nm tv :
  t_by_inner_name te !! nm = Some tv →
  is_dict tv = true ∧ ∃ tk, (tk, tv) ∈ te.
Proof.
  unfold t_by_inner_name. rewrite t_by_inner_name_fold, lookup_empty.
  intros [(pre & tk & post & -> & Hi & _)|[? _]]; [|done].
  split; [by eapply str_field_is_dict|].
  exists tk. apply elem_of_app. right. left.
Qed.

(** X16.  The translation found for an entry is always a mapping of the
    translated document.  A mapping stored under the entry's own key is
    found before anything else; failing that, a mapping stored under the
    entry's [name] used as a key is found before any mapping that merely
    has that [name] inside; an entry without a string [name] and without a
    mapping under its key gets no translation. *)
Theorem find_translation_order (te : items) (key : string) (o_val : value) :
  (∀ tv, find_translation te key o_val = Some tv →
         is_dict tv = true ∧ ∃ tk, (tk, tv) ∈ te) ∧
  (∀ tv, dict_get key te = Some tv → is_dict tv = true →
         find_translation te key o_val = Some tv) ∧
  (∀ nm tv, (∀ v, (key, v) ∈ te → is_dict v = false) →
            str_field "name" o_val = Some nm →
            dict_get nm te = Some tv → is_dict tv = true →
            find_translation te key o_val = Some tv) ∧
  ((∀ v, (key, v) ∈ te → is_dict v = false) →
   str_field "name" o_val = None →
   find_translation te key o_val = None).
Proof.
  assert (∀ k, (∀ v, (k, v) ∈ te → is_dict v = false) →
               dict_get k (t_by_key te) = None) as Hnone.
  { intros k Hk. unfold t_by_key.
    destruct (dict_get k (filter _ te)) as [v|] eqn:E; [|done].
    apply dict_get_filter_Some in E as [Hin Hd]. simpl in Hd.
    rewrite (Hk v Hin) in Hd. done. }
  assert (∀ k tv, dict_get k (t_by_key te) = Some tv →
                  is_dict tv = true ∧ ∃ tk, (tk, tv) ∈ te) as Hkey.
  { intros k tv [Hin Hd]%dict_get_filter_Some. split; [done|]. by exists k. }
  unfold find_translation. split; [|split; [|split]].
  - intros tv. destruct (dict_get key (t_by_key te)) as [tv'|] eqn:E1.
    { intros [= <-]. by eapply Hkey. }
    destruct (str_field "name" o_val) as [nm|]; [|done].
    destruct (dict_get nm (t_by_key te)) as [tv'|] eqn:E2.
    { intros [= <-]. by eapply Hkey. }
    apply t_by_inner_name_elem_of.
  - intros tv Hk Hd. unfold t_by_key.
    by rewrite (dict_get_filter _ te key tv Hk Hd).
  - intros nm tv Hno Hnm Hk Hd. rewrite (Hnone key Hno), Hnm.
    unfold t_by_key. by rewrite (dict_get_filter _ te nm tv Hk Hd).
  - intros Hno Hnm. by rewrite (Hnone key Hno), Hnm.
Qed.

(** ** Sorting only rearranges *)

Lemma elem_of_dict_get (d : items) k v :
  NoDup (keys d) → (k, v) ∈ d ↔ dict_get k d = Some v.
Proof.
  intros Hnd. split; [by apply dict_get_distinct|apply dict_get_elem_of].
Qed.

Lemma sort_value_item_key (kv : string * value) :
  (kv.1, sort_value kv.1 kv.2).1 = kv.1.
Proof. done. Qed.

Lemma partial_sort_json_perm (d : items) :
  NoDup (keys d) →
  partial_sort_json d ≡ₚ map (λ kv, (kv.1, sort_value kv.1 kv.2)) d.
Proof.
  intros Hnd.
  assert (NoDup (keys (partial_sort_json d))) as Hs
    by by apply partial_sort_json_distinct.
  assert (NoDup (keys (map (λ kv, (kv.1, sort_value kv.1 kv.2)) d))) as Hm
    by by rewrite keys_map.
  apply NoDup_Permutation.
  - by apply (NoDup_fmap_1 fst).
  - by apply (NoDup_fmap_1 fst).
  - intros [k v]. rewrite !elem_of_dict_get by done.
    by rewrite dict_get_partial_sort, dict_get_map.
Qed.

(** X17.  Sorting only rearranges a document whose keys are distinct: the
    sorted document holds the same keys, each once, and the same items, an
    item under [folders] or [entries] with its mapping sorted in turn. *)
Theorem partial_sort_json_permutes (d : items) :
  NoDup (keys d) →
  keys (partial_sort_json d) ≡ₚ keys d ∧
  NoDup (keys (partial_sort_json d)) ∧
  partial_sort_json d ≡ₚ map (λ kv, (kv.1, sort_value kv.1 kv.2)) d.
Proof.
  intros Hnd. split; [|split].
  - unfold keys. rewrite (partial_sort_json_perm d Hnd).
    fold (keys (map (λ kv, (kv.1, sort_value kv.1 kv.2)) d)).
    by rewrite keys_map.
  - by apply partial_sort_json_distinct.
  - by apply partial_sort_json_perm.
Qed.

Lemma partial_sort_json_permutes_witness :
  let d := [("entries", JDict [("b", JNum 1); ("a", JNum 2)]);
            ("label", JStr "X"); ("folders", JDict [])] in
  keys (partial_sort_json d) ≡ₚ keys d ∧
  NoDup (keys (partial_sort_json d)) ∧
  partial_sort_json d ≡ₚ map (λ kv, (kv.1, sort_value kv.1 kv.2)) d.
Proof.
  apply (partial_sort_json_permutes
           [("entries", JDict [("b", JNum 1); ("a", JNum 2)]);
            ("label", JStr "X"); ("folders", JDict [])]).
  apply (bool_decide_unpack _). by vm_compute.
Defined.

Lemma sort_keys_dict (d : items) :
  sort_keys (JDict d)
  = JDict (sorted_items (map (λ kv, (kv.1, sort_keys kv.2)) d)).
Proof. done. Qed.

Lemma sort_keys_sorted_items (e : items) :
  NoDup (keys e) → sort_keys (JDict (sorted_items e)) = sort_keys (JDict e).
Proof.
  intros Hnd. rewrite !sort_keys_dict. f_equal. apply sorted_items_unique.
  - apply Permutation_map, sorted_items_perm.
  - rewrite keys_map by done. unfold keys. by rewrite sorted_items_perm.
Qed.

Lemma sort_keys_sort_value k v :
  (∀ e, v = JDict e → k ∈ KEYS_TO_SORT_IMMEDIATELY → NoDup (keys e)) →
  sort_keys (sort_value k v) = sort_keys v.
Proof.
  intros Hv. unfold sort_value.
  destruct (key_in k KEYS_TO_SORT_IMMEDIATELY) eqn:Ek; [|done].
  apply key_in_spec in Ek. destruct v as [| | | | |e]; try done.
  cbn [andb is_dict sort_immediate_keys]. by apply sort_keys_sorted_items, Hv.
Qed.

(** X18.  Sorting is invisible to [has_reduction]: a document with distinct
    keys, also inside the mappings it holds under [folders] and [entries],
    is found equal to its sorted form. *)
Theorem sort_is_no_reduction (d : items) :
  NoDup (keys d) →
  (∀ k e, dict_get k d = Some (JDict e) → k ∈ KEYS_TO_SORT_IMMEDIATELY →
          NoDup (keys e)) →
  has_reduction (JDict d) (JDict (partial_sort_json d)) = false.
Proof.
  intros Hnd Hin. apply has_reduction_false. rewrite !sort_keys_dict. f_equal.
  apply sorted_items_unique; [|by rewrite keys_map].
  rewrite (partial_sort_json_perm d Hnd), map_map.
  apply Permutation_refl'. apply map_ext_Forall, Forall_forall.
  intros [k v] Hkv. cbn [fst snd]. f_equal. symmetry.
  apply sort_keys_sort_value. intros e -> Hk.
  apply (Hin k); [by apply dict_get_distinct|done].
Qed.

Lemma sort_is_no_reduction_witness :
  has_reduction
    (JDict [("entries", JDict [("b", JNum 1); ("a", JNum 2)]);
            ("label", JStr "X")])
    (JDict (partial_sort_json
              [("entries", JDict [("b", JNum 1); ("a", JNum 2)]);
               ("label", JStr "X")])) = false.
Proof.
  apply sort_is_no_reduction.
  - apply (bool_decide_unpack _). by vm_compute.
  - intros k e Hk _. simpl in Hk.
    destruct (String.eqb k "entries"); [|by destruct (String.eqb k "label")].
    injection Hk as <-. apply (bool_decide_unpack _). by vm_compute.
Defined.

(** ** Translated strings reach the original *)

Lemma same_key_with_scalar rec (s : items) k v :
  is_container v = false → same_key_with rec s k v = v.
Proof.
  intros Hv. induction s as [|[k' sv] s IH]; [done|]. simpl.
  destruct (String.eqb k k'); [|done]. by destruct sv, v.
Qed.

Lemma merge_items_get_string (d s : items) k x :
  NoDup (keys s) → dict_get k s = Some (JStr x) → copyable k (JStr x) →
  dict_get k (merge_items_with merge_rec s d) = Some (JStr x).
Proof.
  intros Hnd Hk Hc. rewrite dict_get_merge_items, copy_items_get, Hk by done.
  apply (copied_spec (k, JStr x)) in Hc. rewrite Hc. simpl.
  by rewrite same_key_with_scalar.
Qed.

(** X19.  After a merge the destination holds, under every translatable
    key other than [_id] for which the source (keys distinct) holds a
    string, that string. *)
Theorem merge_copies_translated_strings (d s : items) (k x : string) :
  NoDup (keys s) → dict_get k s = Some (JStr x) →
  k ≠ "_id" → k ∈ TRANSLATABLE_KEYS →
  ∃ d', merge_translations (JDict d) (JDict s) = JDict d' ∧
        dict_get k d' = Some (JStr x).
Proof.
  intros Hnd Hk Hid Hin. exists (merge_items_with merge_rec s d).
  split; [done|]. apply merge_items_get_string; [done..|].
  split; [done|]. split; [by apply key_in_spec|done].
Qed.

Lemma merge_copies_translated_strings_witness :
  ∃ d', merge_translations
          (JDict [("label", JStr "Sword"); ("value", JNum 10)])
          (JDict [("_id", JStr "i1"); ("label", JStr "Espada")])
        = JDict d' ∧
        dict_get "label" d' = Some (JStr "Espada").
Proof.
  apply (merge_copies_translated_strings
           [("label", JStr "Sword"); ("value", JNum 10)]
           [("_id", JStr "i1"); ("label", JStr "Espada")] "label" "Espada").
  - apply (bool_decide_unpack _). by vm_compute.
  - reflexivity.
  - discriminate.
  - apply (bool_decide_unpack _). by vm_compute.
Defined.



(** ** Matching by [_id] *)

Section pass_key_facts.
Variable merge_at : nat → value → value.

Lemma merge_pair_lookup_other st di si j :
  j ≠ di → ms_dst (merge_pair merge_at st di si) !! j = ms_dst st !! j.
Proof.
  intros Hj. unfold merge_pair. destruct (ms_dst st !! di); [|done].
  simpl. by apply list_lookup_insert_ne.
Qed.

Lemma pass_key_lookup_other k (table : gmap string nat) st di j :
  j ≠ di → ms_dst (pass_key merge_at k table st di) !! j = ms_dst st !! j.
Proof. intros Hj. pass_key_cases. by apply merge_pair_lookup_other. Qed.

Lemma pass_key_used k (table : gmap string nat) st di s :
  s ∈ ms_used (pass_key merge_at k table st di) →
  s ∈ ms_used st ∨
  ∃ d key, ms_dst st !! di = Some d ∧ str_field k d = Some key ∧
           table !! key = Some s.
Proof.
  unfold pass_key. destruct (ms_dst st !! di) as [d|] eqn:Ed; [|by left].
  destruct (str_field k d) as [key|] eqn:Ek; [|by left].
  destruct (table !! key) as [si|] eqn:Et; [|by left].
  case_decide; [by left|]. unfold merge_pair. rewrite Ed. simpl.
  intros [->%elem_of_singleton|?]%elem_of_union; [|by left].
  right. by exists d, key.
Qed.

Lemma pass_key_fires k (table : gmap string nat) st di d key si :
  ms_dst st !! di = Some d → str_field k d = Some key →
  table !! key = Some si → si ∉ ms_used st →
  ms_log (pass_key merge_at k table st di) = (ms_log st ++ [(di, si)])%list.
Proof.
  intros Hd Hk Ht Hs. unfold pass_key, merge_pair.
  by rewrite Hd, Hk, Ht, decide_False by done.
Qed.

Lemma merge_pair_log_mono st di si p :
  p ∈ ms_log st → p ∈ ms_log (merge_pair merge_at st di si).
Proof.
  intros Hp. unfold merge_pair. destruct (ms_dst st !! di); [|done].
  simpl. apply elem_of_app. by left.
Qed.

Lemma pass_key_log_mono k (table : gmap string nat) st di p :
  p ∈ ms_log st → p ∈ ms_log (pass_key merge_at k table st di).
Proof. intros Hp. pass_key_cases. by apply merge_pair_log_mono. Qed.

Lemma pass_fold_log_mono k (table : gmap string nat) (l : list nat) st p :
  p ∈ ms_log st →
  p ∈ ms_log (fold_left (pass_key merge_at k table) l st).
Proof.
  intros Hp. apply (fold_left_invariant (λ st, p ∈ ms_log st)); [done|].
  intros st' dj. apply pass_key_log_mono.
Qed.

(** While the first loop goes through destination indices below [di], in
    ascending order, the elements from [di] on are as in the list given,
    and every source index used was found for the [_id] of a destination
    element below [di]. *)
Lemma pass_id_before (dl sl : list value) (di : nat) (l : list nat) st b :
  StronglySorted lt l →
  (∀ j, j ∈ l → b ≤ j < di) → b ≤ di →
  (∀ j, b ≤ j → ms_dst st !! j = dl !! j) →
  (∀ s, s ∈ ms_used st →
        ∃ dj y, dj < di ∧ field_at "_id" dl dj = Some y ∧
                by_id sl !! y = Some s) →
  (∀ j, di ≤ j →
        ms_dst (fold_left (pass_key merge_at "_id" (by_id sl)) l st) !! j
        = dl !! j) ∧
  (∀ s, s ∈ ms_used (fold_left (pass_key merge_at "_id" (by_id sl)) l st) →
        ∃ dj y, dj < di ∧ field_at "_id" dl dj = Some y ∧
                by_id sl !! y = Some s).
Proof.
  intros Hsorted. revert st b.
  induction Hsorted as [|dj l _ IH Hlt]; intros st b Hl Hb Hdst Hused.
  - split; [|done]. intros j Hj. apply Hdst. lia.
  - cbn [fold_left].
    assert (b ≤ dj < di) as Hdj by (apply Hl; left).
    rewrite Forall_forall in Hlt.
    apply (IH _ (S dj)).
    + intros j Hj. specialize (Hlt j Hj).
      assert (b ≤ j < di) by (apply Hl; by right). lia.
    + lia.
    + intros j Hj. rewrite pass_key_lookup_other by lia. apply Hdst. lia.
    + intros s [Hs|(d & key & Hd & Hk & Ht)]%pass_key_used; [by apply Hused|].
      exists dj, key. split; [lia|]. split; [|done].
      unfold field_at. rewrite <-Hdst by lia. by rewrite Hd.
Qed.
End pass_key_facts.

Lemma by_id_source (sl : list value) x y si :
  by_id sl !! x = Some si → by_id sl !! y = Some si → x = y.
Proof.
  intros [Hx _]%index_by_last [Hy _]%index_by_last. congruence.
Qed.

Lemma pass_id_matches (dl sl : list value) (di si : nat) (x : string) :
  field_at "_id" dl di = Some x →
  by_id sl !! x = Some si →
  (∀ dj, dj < di → field_at "_id" dl dj ≠ Some x) →
  (di, si) ∈ ms_log (pass_id (merge_at_src sl) sl dl).
Proof.
  intros Hx Hsi Hfirst.
  pose proof (field_at_is_dict _ _ _ _ Hx) as Hdi.
  apply elem_of_dict_indices, list_elem_of_split in Hdi as (pre & post & Hsplit).
  pose proof (dict_indices_sorted dl) as Hsorted. rewrite Hsplit in Hsorted.
  unfold pass_id. rewrite Hsplit, fold_left_app. cbn [fold_left].
  apply pass_fold_log_mono.
  destruct (pass_id_before (merge_at_src sl) dl sl di pre
              (MergeState dl ∅ []) 0) as [Hdst Hused].
  - by eapply StronglySorted_app_1_l.
  - intros j Hj. split; [lia|].
    apply (StronglySorted_app_1_elem_of _ _ _ j di Hsorted Hj). left.
  - lia.
  - done.
  - intros s Hs. by apply elem_of_empty in Hs.
  - unfold field_at in Hx. destruct (dl !! di) as [d|] eqn:Ed; [|done].
    simpl in Hx. erewrite pass_key_fires; [|by rewrite Hdst|done|done|].
    + apply elem_of_app. right. left.
    + intros (dj & y & Hdj & Hy & Hs)%Hused.
      rewrite (by_id_source _ _ _ _ Hsi Hs) in Hfirst. by apply (Hfirst dj).
Qed.

(** X21.  Matching by [_id]: a destination mapping with a string [_id] is
    merged from the source mapping that [by_id] holds for that [_id], the
    last one with it, whatever the positions of the two, unless a
    destination mapping before it has the same [_id]. *)
Theorem merge_lists_matches_by_id (dl sl : list value) (di si : nat) (x : string) :
  field_at "_id" dl di = Some x →
  by_id sl !! x = Some si →
  (∀ dj, dj < di → field_at "_id" dl dj ≠ Some x) →
  (di, si) ∈ ms_log (merge_lists_trace dl sl) ∧
  field_at "_id" sl si = Some x.
Proof.
  intros Hx Hsi Hfirst. split.
  - rewrite merge_lists_trace_log. apply elem_of_app. left.
    unfold merge_lists_keyed, pass_name. apply pass_fold_log_mono.
    by eapply pass_id_matches.
  - by apply index_by_last in Hsi as [? _].
Qed.

Lemma merge_lists_matches_by_id_witness :
  let dl := [JDict [("_id", JStr "x"); ("label", JStr "A")];
             JDict [("_id", JStr "y"); ("label", JStr "B")]] in
  let sl := [JDict [("_id", JStr "y"); ("label", JStr "B2")];
             JDict [("_id", JStr "x"); ("label", JStr "A2")]] in
  (0, 1) ∈ ms_log (merge_lists_trace dl sl) ∧
  field_at "_id" sl 1 = Some "x".
Proof.
  apply (merge_lists_matches_by_id
           [JDict [("_id", JStr "x"); ("label", JStr "A")];
            JDict [("_id", JStr "y"); ("label", JStr "B")]]
           [JDict [("_id", JStr "y"); ("label", JStr "B2")];
            JDict [("_id", JStr "x"); ("label", JStr "A2")]] 0 1 "x").
  - reflexivity.
  - by vm_compute.
  - intros dj Hdj. lia.
Defined.

(** ** What [reduce_entries] leaves alone *)

Lemma reduce_item_other k v :
  is_dict v = false → reduce_item (k, v) = (k, v).
Proof. by destruct v. Qed.

(** X22.  [reduce_entries] keeps the outer structure of a document: the
    reduced document has the keys of the document, in order, and every
    value that is not a mapping, sequences with all they hold included,
    is kept as it is. *)
Theorem reduce_entries_keeps_outer (d : items) :
  ∃ d', reduce_entries (JDict d) = JDict d' ∧
        keys d' = keys d ∧
        ∀ k v, dict_get k d = Some v → is_dict v = false →
               dict_get k d' = Some v.
Proof.
  exists (map reduce_item d). split; [apply reduce_entries_dict|].
  split; [apply keys_map, reduce_item_key|].
  intros k v Hk Hv. rewrite dict_get_map by apply reduce_item_key.
  rewrite Hk. simpl. by rewrite reduce_item_other.
Qed.

(** ** A source that has nothing new *)

Lemma agrees_dict si di :
  agrees (JDict si) (JDict di) =
  forallb (λ kv,
             match kv.2 with
             | JStr x =>
                 if copied kv then
                   match dict_get kv.1 di with
                   | Some (JStr y) => String.eqb x y
                   | _ => false
                   end
                 else true
             | JDict _ =>
                 forallb (λ kv', if String.eqb kv'.1 kv.1 && is_dict kv'.2
                                 then agrees kv.2 kv'.2 else true) di
             | JList _ => false
             | _ => true
             end) si.
Proof. done. Qed.

Lemma copy_items_agrees (si di : items) :
  agrees (JDict si) (JDict di) = true → copy_items di si = di.
Proof.
  rewrite agrees_dict. intros Hsi. unfold copy_items.
  apply (fold_left_invariant_in (λ acc, acc = di)); [done|].
  intros acc [k v] Hin ->. cbn [fst snd].
  pose proof (forallb_elem_of _ _ _ Hsi Hin) as Hkv. cbn [fst snd] in Hkv.
  destruct (String.eqb k "_id") eqn:Eid; [done|].
  destruct (is_str v && key_in k TRANSLATABLE_KEYS) eqn:Ec; [|done].
  destruct v as [| | |x| |]; try done.
  unfold copied in Hkv. cbn [fst snd] in Hkv. rewrite Eid, Ec in Hkv.
  simpl in Hkv. apply dict_set_same.
  destruct (dict_get k di) as [[| | |y| |]|]; try done.
  by apply String.eqb_eq in Hkv as ->.
Qed.

Lemma same_key_with_agrees (si di : items) k dv :
  (k, dv) ∈ di →
  Forall (λ kv, ∀ d, agrees kv.2 d = true → merge_rec kv.2 d = d) si →
  agrees (JDict si) (JDict di) = true →
  same_key_with merge_rec si k dv = dv.
Proof.
  intros Hin IH. rewrite agrees_dict.
  induction IH as [|[k' sv] si Hsv _ IHsi]; [done|].
  cbn [forallb fst snd]. intros [Hhead Hrest]%andb_true_iff.
  cbn [same_key_with]. destruct (String.eqb k k') eqn:Ek; [|by apply IHsi].
  destruct sv as [| | | |sl|sd], dv as [| | | |dl|dd]; try done.
  cbn [snd] in Hsv. apply Hsv.
  pose proof (forallb_elem_of _ _ _ Hhead Hin) as Hkv. cbn [fst snd] in Hkv.
  by rewrite Ek in Hkv.
Qed.

Lemma cross_lists_with_agrees (si di : items) dl :
  agrees (JDict si) (JDict di) = true →
  cross_lists_with merge_rec si dl = dl.
Proof.
  rewrite agrees_dict. induction si as [|[k sv] si IH]; [done|].
  cbn [forallb fst snd]. intros [Hhead Hrest]%andb_true_iff.
  cbn [cross_lists_with]. destruct sv; try done; by apply IH.
Qed.

Lemma merge_rec_agrees s d : agrees s d = true → merge_rec s d = d.
Proof.
  revert d. induction s as [| | | |sl IH|si IH] using value_ind'; try done.
  intros [| | | | |di] Hag; try done.
  cbn [merge_rec]. f_equal. unfold merge_items_with.
  rewrite (copy_items_agrees si di Hag), map_map.
  rewrite <-(map_id di) at 2. apply map_ext_Forall, Forall_forall.
  intros [k dv] Hin. cbn [fst snd].
  rewrite (same_key_with_agrees si di k dv Hin IH Hag).
  destruct dv; try done. by rewrite (cross_lists_with_agrees si di).
Qed.

(** X23.  A source that agrees with the destination changes nothing: when
    every translatable string of the source is already in the destination,
    down through the mappings they share, and the source holds no
    sequence, the destination after the merge is the destination before. *)
Theorem merge_translations_agreeing (d s : value) :
  agrees s d = true → merge_translations d s = d.
Proof. apply merge_rec_agrees. Qed.

Lemma merge_translations_agreeing_witness :
  merge_translations
    (JDict [("_id", JStr "i1"); ("label", JStr "Espada");
            ("system", JDict [("description", JStr "Lamina"); ("cost", JNum 3)]);
            ("tags", JList [JStr "a"])])
    (JDict [("_id", JStr "other"); ("label", JStr "Espada");
            ("system", JDict [("description", JStr "Lamina")])])
  = JDict [("_id", JStr "i1"); ("label", JStr "Espada");
           ("system", JDict [("description", JStr "Lamina"); ("cost", JNum 3)]);
           ("tags", JList [JStr "a"])].
Proof. apply merge_translations_agreeing. reflexivity. Defined.

(** ** Merging a companion that was not edited *)

Lemma distinct_keys_dict (d : items) :
  distinct_keys (JDict d) = true →
  NoDup (keys d) ∧ ∀ k v, (k, v) ∈ d → distinct_keys v = true.
Proof.
  cbn [distinct_keys]. intros [Hnd Hall]%andb_true_iff.
  split; [by apply bool_decide_eq_true in Hnd|].
  intros k v Hin. apply (forallb_elem_of _ _ (k, v) Hall Hin).
Qed.

Lemma list_free_dict (d : items) k v :
  list_free (JDict d) = true → (k, v) ∈ d → list_free v = true.
Proof. cbn [list_free]. intros Hall Hin. apply (forallb_elem_of _ _ (k, v) Hall Hin). Qed.

Lemma forallb_intro {A} (f : A → bool) (l : list A) :
  (∀ x, x ∈ l → f x = true) → forallb f l = true.
Proof.
  intros H. apply forallb_forall. intros x Hx. by apply H, list_elem_of_In.
Qed.

(** The test [agrees] makes for a mapping of the source against the
    mappings the destination holds under the same key, here for a
    destination with distinct keys that holds [dv] under that key. *)
Lemma agrees_same_key (d : items) k sv dv :
  NoDup (keys d) → (k, dv) ∈ d → agrees sv dv = true →
  forallb (λ kv', if String.eqb kv'.1 k && is_dict kv'.2
                  then agrees sv kv'.2 else true) d = true.
Proof.
  intros Hnd Hin Hag. apply forallb_intro. intros [k' dv'] Hin'. cbn [fst snd].
  destruct (String.eqb_spec k' k) as [->|]; [|done].
  by rewrite (distinct_keys_value d k dv' dv Hnd Hin' Hin), Hag, Tauto.if_same.
Qed.

Lemma agrees_refl v :
  distinct_keys v = true → list_free v = true → agrees v v = true.
Proof.
  induction v as [| | | |l IH|d IH] using value_ind'; try done.
  intros Hd Hl. pose proof (distinct_keys_dict d Hd) as [Hnd Hsub].
  rewrite agrees_dict. apply forallb_intro. intros [k v] Hin. cbn [fst snd].
  pose proof (list_free_dict d k v Hl Hin) as Hlv.
  rewrite Forall_forall in IH. specialize (IH (k, v) Hin (Hsub k v Hin) Hlv).
  destruct v as [| | |x| |e]; try done.
  - rewrite (dict_get_distinct d k (JStr x) Hnd Hin), String.eqb_refl.
    by destruct (copied _).
  - by apply (agrees_same_key d k _ (JDict e)).
Qed.

Lemma agrees_clean_entry v :
  distinct_keys v = true → list_free (clean_entry v) = true →
  agrees (clean_entry v) v = true.
Proof.
  induction v as [| | | |l IH|d IH] using value_ind'; try done.
  intros Hd Hl. pose proof (distinct_keys_dict d Hd) as [Hnd Hsub].
  rewrite clean_entry_dict in Hl |- *. rewrite agrees_dict.
  apply forallb_intro. intros [k v'] Hin'. cbn [fst snd].
  pose proof (list_free_dict _ k v' Hl Hin') as Hlv'.
  apply elem_of_clean_items in Hin' as (v & Hin & [->|[Hc ->]]).
  - destruct v as [| | |x| |e]; try done.
    + rewrite (dict_get_distinct d k (JStr x) Hnd Hin), String.eqb_refl.
      by destruct (copied _).
    + apply (agrees_same_key d k _ (JDict e)); [done..|].
      apply agrees_refl; [by apply (Hsub k)|done].
  - rewrite Forall_forall in IH.
    specialize (IH (k, v) Hin (Hsub k v Hin) Hlv').
    destruct v as [| | | |l|e]; try done.
    rewrite clean_entry_dict in *.
    by apply (agrees_same_key d k _ (JDict e)).
Qed.

Lemma merge_own_clean v :
  distinct_keys v = true → list_free (clean_entry v) = true →
  merge_translations v (clean_entry v) = v.
Proof. intros Hd Hl. by apply merge_rec_agrees, agrees_clean_entry. Qed.

(** X24.  Round trip on a record: merging the reduction of a record back
    into the record leaves the record as it is, when the keys of its
    mappings are distinct and its reduction holds no sequence. *)
Theorem merge_of_own_reduction (v : value) :
  distinct_keys v = true → list_free (clean_entry v) = true →
  merge_translations v (clean_entry v) = v.
Proof. apply merge_own_clean. Qed.

Lemma merge_of_own_reduction_witness :
  merge_translations
    (JDict [("_id", JStr "i1"); ("name", JStr "Sword"); ("value", JNum 10);
            ("system", JDict [("description", JStr "Blade"); ("cost", JNum 3)]);
            ("slots", JList [JNum 1; JNum 2])])
    (clean_entry
       (JDict [("_id", JStr "i1"); ("name", JStr "Sword"); ("value", JNum 10);
               ("system", JDict [("description", JStr "Blade"); ("cost", JNum 3)]);
               ("slots", JList [JNum 1; JNum 2])]))
  = JDict [("_id", JStr "i1"); ("name", JStr "Sword"); ("value", JNum 10);
           ("system", JDict [("description", JStr "Blade"); ("cost", JNum 3)]);
           ("slots", JList [JNum 1; JNum 2])].
Proof. apply merge_of_own_reduction; by vm_compute. Defined.




